(** * curl++ : RAII wrappers around libcurl's easy handle, string list and
      error reporting (src/curl++.h, src/curl++.cpp)

    The wrappers are thin: every method forwards to one native call.  The
    native library is not part of the repository, so its answers are a
    parameter ([env]); the wrappers themselves are embedded from the source
    as computations over an explicit [world]: the chronological record of
    native calls, an address allocator, the configuration the library keeps
    per handle, the native string chains and the caller's [std::string]
    objects.

    Conventions.
    - A pointer is an address in [Z]; [nullptr] is 0.
    - A C string ([const char *]) is a [string]: the characters held before
      the terminator.  A [std::string] is the [string] of all its
      characters, which may include the terminator's value; [c_str] gives
      the C string a native call reads at its [c_str()].
    - [size_t] is 64 bits wide and [int] 32 bits wide; arithmetic on them is
      written with its wrap-around.
    - Allocation ([malloc], [strdup], growth of a [std::string], a new chain
      node) does not fail; the failures the source tests for (a null handle,
      a [CURLcode] other than [CURLE_OK]) are modelled. *)

From stdpp Require Import base numbers list strings gmap pretty.

Local Open Scope Z_scope.

(** ** Machine integers and strings *)

Definition nullptr : Z := 0.

Definition size_t (z : Z) : Z := z `mod` 2 ^ 64.

Definition INT_MAX : Z := 2 ^ 31 - 1.

Definition LF : string := String (Ascii.ascii_of_nat 10) "".

Definition strlen (s : string) : Z := Z.of_nat (String.length s).

(** The first [n] characters of [s] (all of [s] when it is shorter). *)
Fixpoint str_take (n : nat) (s : string) : string :=
  match n, s with
  | S n', String c s' => String c (str_take n' s')
  | _, _ => ""
  end.

Fixpoint str_concat (ss : list string) : string :=
  match ss with
  | [] => ""
  | s :: ss' => s +:+ str_concat ss'
  end.

(** The character that ends a C string. *)
Definition NUL : Ascii.ascii := Ascii.zero.

(** What is read at [s.c_str()]: the characters of [s] before its first
    [NUL], all of them when it has none. *)
Fixpoint c_str (s : string) : string :=
  match s with
  | "" => ""
  | String c s' => if decide (c = NUL) then "" else String c (c_str s')
  end.

(** [s] holds no [NUL]. *)
Fixpoint nul_free (s : string) : Prop :=
  match s with
  | "" => True
  | String c s' => c ≠ NUL ∧ nul_free s'
  end.

(** [sub] occurs in [s]. *)
Definition contains (s sub : string) : Prop :=
  ∃ before after, s = before +:+ sub +:+ after.

(** ** libcurl's vocabulary (curl/curl.h) *)

Definition CURLE_OK : Z := 0.
Definition CURLE_WRITE_ERROR : Z := 23.

Inductive CURLoption :=
| CURLOPT_WRITEDATA
| CURLOPT_WRITEFUNCTION
| CURLOPT_COOKIELIST
| CURLOPT_other (id : Z).

(** The write callbacks a handle can hold: the one this file embeds, or a
    function known only by its address. *)
Inductive writefunc :=
| WF_string
| WF_other (address : Z).

(** The value kinds [curl_easy_setopt] receives from the four [set]
    overloads. *)
Inductive optval :=
| VLong (value : Z)
| VStr (value : string)
| VPtr (value : Z)
| VFun (value : writefunc).

(** What the library offers to a write callback: the bytes at [ptr], and the
    two factors [size] and [nmemb] it passes along. *)
Record chunk := { c_data : string; c_size : Z; c_nmemb : Z }.

(** One entry of the record of native calls.  [Call_write] is the library
    calling back during a transfer, with what the callback returned. *)
Inductive call :=
| Call_global_init (flags : Z)
| Call_global_cleanup
| Call_easy_init
| Call_easy_cleanup (h : Z)
| Call_easy_duphandle (h : Z)
| Call_easy_setopt (h : Z) (option : CURLoption) (value : optval)
| Call_easy_pause (h : Z) (bitmask : Z)
| Call_easy_perform (h : Z)
| Call_easy_reset (h : Z)
| Call_write (f : option writefunc) (c : chunk) (userdata : Z) (ret : Z)
| Call_slist_append (sl : Z) (value : string)
| Call_slist_free_all (sl : Z).

(** ** The environment: the build and the native library's answers

    Each answer may depend on everything that was called before. *)
Record env := {
  FILE_cpp : string;                      (* __FILE__ inside curl++.cpp *)
  FILE_h : string;                        (* __FILE__ inside curl++.h *)
  global_init_code : list call → Z → Z;   (* curl_global_init's answer *)
  easy_init_ok : list call → bool;        (* curl_easy_init finds a handle *)
  duphandle_ok : list call → Z → bool;    (* curl_easy_duphandle finds one *)
  setopt_code : list call → Z → CURLoption → optval → Z;
  pause_code : list call → Z → Z → Z;
  (* the chunks a transfer offers, and its code once all were accepted *)
  perform_script : list call → Z → list chunk * Z;
  other_write_ret : Z → chunk → Z;        (* what a foreign callback returns *)
  slist_relocates : list call → Z → bool; (* the append moves the chain *)
  easy_strerror : Z → string              (* curl_easy_strerror *)
}.

(** ** The world *)

(** What the library remembers of a handle's options. *)
Record conf := { writefunction : option writefunc; writedata : Z }.

Definition conf_default : conf :=
  {| writefunction := None; writedata := nullptr |}.

Record world := {
  w_trace : list call;              (* native calls so far, oldest first *)
  w_next : positive;                (* next address never handed out yet *)
  w_easy : gmap Z conf;             (* live native handles *)
  w_slist : gmap Z (list string);   (* native chains, by head reference *)
  w_strings : gmap Z string         (* std::string objects, by address *)
}.

Definition log (c : call) (w : world) : world :=
  {| w_trace := w_trace w ++ [c]; w_next := w_next w; w_easy := w_easy w;
     w_slist := w_slist w; w_strings := w_strings w |}.

Definition fresh (w : world) : Z := Z.pos (w_next w).

Definition bump (w : world) : world :=
  {| w_trace := w_trace w; w_next := Pos.succ (w_next w); w_easy := w_easy w;
     w_slist := w_slist w; w_strings := w_strings w |}.

Definition with_easy (m : gmap Z conf) (w : world) : world :=
  {| w_trace := w_trace w; w_next := w_next w; w_easy := m;
     w_slist := w_slist w; w_strings := w_strings w |}.

Definition with_slist (m : gmap Z (list string)) (w : world) : world :=
  {| w_trace := w_trace w; w_next := w_next w; w_easy := w_easy w;
     w_slist := m; w_strings := w_strings w |}.

Definition with_strings (m : gmap Z string) (w : world) : world :=
  {| w_trace := w_trace w; w_next := w_next w; w_easy := w_easy w;
     w_slist := w_slist w; w_strings := m |}.

Definition conf_of (w : world) (h : Z) : conf :=
  default conf_default (w_easy w !! h).

(** The entries of the chain a reference stands for: the null reference is
    the empty chain, a reference the library does not know is dangling. *)
Definition chain_of (w : world) (sl : Z) : option (list string) :=
  if decide (sl = nullptr) then Some [] else w_slist w !! sl.

(** ** class error *)

Record curl_error := { buf_ : string }.

(** ** Computations: a result or a thrown [error], over the world *)

Inductive result (A : Type) :=
| Ok (a : A)
| Throw (e : curl_error)
| Undefined.                    (* the C++ standard gives no meaning *)
Arguments Ok {A} a.
Arguments Throw {A} e.
Arguments Undefined {A}.

Definition M (A : Type) : Type := world → result A * world.

Global Instance M_ret : MRet M := λ A a w, (Ok a, w).

Global Instance M_bind : MBind M := λ A B f m w,
  match m w with
  | (Ok a, w') => f a w'
  | (Throw e, w') => (Throw e, w')
  | (Undefined, w') => (Undefined, w')
  end.

Definition throw {A} (e : curl_error) : M A := λ w, (Throw e, w).

Definition undefined {A} : M A := λ w, (Undefined, w).

(** [throw error(...)]: the constructor runs first. *)
Definition throw_new {A} (e : option curl_error) : M A :=
  match e with
  | Some e => throw e
  | None => undefined
  end.

Definition gets {A} (f : world → A) : M A := λ w, (Ok (f w), w).

Definition modify (f : world → world) : M unit := λ w, (Ok tt, f w).

(** ** class error (curl++.cpp 261-304) *)

(** [snprintf(nullptr, 0, fmt, ...)]: the length of the expansion, as an
    [int]; a negative value when the length is not representable. *)
Definition snprintf_size (expansion : string) : Z :=
  if decide (strlen expansion ≤ INT_MAX) then strlen expansion else -1.

(** [snprintf(buf, n, fmt, ...)] into a block of [room] bytes: at most
    [n - 1] characters of the expansion are stored, then the terminator.
    The result is the C string left in the block; there is none when
    nothing is stored ([n = 0]) or when the store runs past the block. *)
Definition snprintf_into (room n : Z) (expansion : string) : option string :=
  if decide (n = 0) then None
  else
    let written := Z.min (strlen expansion) (n - 1) in
    if decide (written + 1 ≤ room)
    then Some (str_take (Z.to_nat written) expansion)
    else None.

(** "File: %s - Line: %d\n%s\n" *)
Definition fmt_loc (file : string) (line : Z) (msg : string) : string :=
  "File: " +:+ file +:+ " - Line: " +:+ pretty line +:+ LF +:+ msg +:+ LF.

(** "File: %s - Line: %d\n%s\n----------\n%s\n" *)
Definition fmt_code (file : string) (line : Z) (msg errstr : string) : string :=
  "File: " +:+ file +:+ " - Line: " +:+ pretty line +:+ LF +:+ msg +:+ LF
  +:+ "----------" +:+ LF +:+ errstr +:+ LF.

(** [error(msg)]: [buf_(strdup(msg))]. *)
Definition error_ctor_msg (msg : string) : option curl_error :=
  Some {| buf_ := msg |}.

(** The body shared by the two formatting constructors: measure, allocate
    [size+1] bytes, format again with the bound [size].  [size] is an
    [int], and so is [size+1] before [malloc] receives it. *)
Definition error_format (expansion : string) : option curl_error :=
  let size := snprintf_size expansion in
  if decide (size + 1 ≤ INT_MAX) then
    let room := size_t (size + 1) in
    buf ← snprintf_into room (size_t size) expansion;
    Some {| buf_ := buf |}
  else None.

(** [error(msg, file, line)] *)
Definition error_ctor_loc (msg file : string) (line : Z) : option curl_error :=
  error_format (fmt_loc file line msg).

(** [error::what] *)
Definition error_what (this : curl_error) : string := buf_ this.

(** ** The static write callback (curl++.cpp 196-201) *)

(** [buffer->append(ptr, size*nmemb); return size*nmemb;] where [ptr] is
    given by the bytes found there.  Reading past them, or appending to
    something that is not a live string, has no meaning. *)
Definition recv_into_writefunc_string_
    (ptr : string) (size nmemb : Z) (buffer : Z) : M Z := λ w,
  let n := size_t (size * nmemb) in
  match w_strings w !! buffer with
  | Some s =>
      if decide (n ≤ strlen ptr)
      then (Ok n, with_strings
                    (<[buffer := s +:+ str_take (Z.to_nat n) ptr]> (w_strings w)) w)
      else (Undefined, w)
  | None => (Undefined, w)
  end.

Section Wrappers.
Variable E : env.

(** [error(msg, code, file, line)] *)
Definition error_ctor_code (msg : string) (code : Z) (file : string) (line : Z)
    : option curl_error :=
  let errstr := easy_strerror E code in
  error_format (fmt_code file line msg errstr).

(** ** The native library *)

Definition curl_global_init (flags : Z) : M Z := λ w,
  (Ok (global_init_code E (w_trace w) flags), log (Call_global_init flags) w).

Definition curl_global_cleanup : M unit := modify (log Call_global_cleanup).

(** A handle the library hands out lives at an address never used before. *)
Definition curl_easy_init : M Z := λ w,
  let w1 := log Call_easy_init w in
  if easy_init_ok E (w_trace w)
  then (Ok (fresh w),
        bump (with_easy (<[fresh w := conf_default]> (w_easy w)) w1))
  else (Ok nullptr, w1).

(** The clone starts with the options of the original. *)
Definition curl_easy_duphandle (h : Z) : M Z := λ w,
  let w1 := log (Call_easy_duphandle h) w in
  if duphandle_ok E (w_trace w) h
  then (Ok (fresh w),
        bump (with_easy (<[fresh w := conf_of w h]> (w_easy w)) w1))
  else (Ok nullptr, w1).

Definition curl_easy_cleanup (h : Z) : M unit := λ w,
  (Ok tt, with_easy (delete h (w_easy w)) (log (Call_easy_cleanup h) w)).

Definition conf_set (option : CURLoption) (value : optval) (c : conf) : conf :=
  match option, value with
  | CURLOPT_WRITEDATA, VPtr p =>
      {| writefunction := writefunction c; writedata := p |}
  | CURLOPT_WRITEFUNCTION, VFun f =>
      {| writefunction := Some f; writedata := writedata c |}
  | _, _ => c
  end.

(** An option is kept exactly when the library answers [CURLE_OK]. *)
Definition curl_easy_setopt (h : Z) (option : CURLoption) (value : optval)
    : M Z := λ w,
  let code := setopt_code E (w_trace w) h option value in
  let w1 := log (Call_easy_setopt h option value) w in
  if decide (code = CURLE_OK)
  then (Ok code,
        with_easy (<[h := conf_set option value (conf_of w h)]> (w_easy w)) w1)
  else (Ok code, w1).

Definition curl_easy_pause (h bitmask : Z) : M Z := λ w,
  (Ok (pause_code E (w_trace w) h bitmask), log (Call_easy_pause h bitmask) w).

Definition curl_easy_reset (h : Z) : M unit := λ w,
  (Ok tt, with_easy (<[h := conf_default]> (w_easy w)) (log (Call_easy_reset h) w)).

(** The library calls the callback the handle holds; without one the bytes
    go to its own default sink, which takes them all. *)
Definition write_callback (cf : conf) (c : chunk) : M Z :=
  match writefunction cf with
  | Some WF_string =>
      recv_into_writefunc_string_ (c_data c) (c_size c) (c_nmemb c) (writedata cf)
  | Some (WF_other a) => mret (other_write_ret E a c)
  | None => mret (strlen (c_data c))
  end.

(** Chunks are offered in order; a callback that returns anything but the
    number of bytes offered stops the transfer. *)
Fixpoint deliver (h : Z) (chunks : list chunk) : M bool :=
  match chunks with
  | [] => mret true
  | c :: rest =>
      cf ← gets (λ w, conf_of w h);
      ret ← write_callback cf c;
      modify (log (Call_write (writefunction cf) c (writedata cf) ret));;
      if decide (ret = strlen (c_data c)) then deliver h rest else mret false
  end.

Definition curl_easy_perform (h : Z) : M Z := λ w,
  let script := perform_script E (w_trace w) h in
  (accepted ← deliver h script.1;
   mret (if accepted : bool then script.2 else CURLE_WRITE_ERROR))
    (log (Call_easy_perform h) w).

(** A chain is known by the reference to its head.  Appending to the null
    reference makes a chain at a new address; appending to a chain may move
    it, after which the old reference is dangling. *)
Definition curl_slist_append (sl : Z) (value : string) : M Z := λ w,
  match chain_of w sl with
  | None => (Undefined, w)
  | Some items =>
      let head :=
        if decide (sl = nullptr) then fresh w
        else if slist_relocates E (w_trace w) sl then fresh w else sl in
      (Ok head,
       bump (with_slist (<[head := items ++ [value]]> (delete sl (w_slist w)))
               (log (Call_slist_append sl value) w)))
  end.

Definition curl_slist_free_all (sl : Z) : M unit := λ w,
  (Ok tt, with_slist (delete sl (w_slist w)) (log (Call_slist_free_all sl) w)).

(** ** The two macros *)

(** [ERROR(x)] is [error(x, __FILE__, __LINE__)], used in curl++.cpp only. *)
Definition ERROR (x : string) (line : Z) : option curl_error :=
  error_ctor_loc x (FILE_cpp E) line.

(** [CHECK(x)]: [x_text] is the stringified argument [#x]. *)
Definition CHECK (file : string) (line : Z) (x_text : string) (x : M Z)
    : M unit :=
  code ← x;
  if decide (code ≠ CURLE_OK)
  then throw_new (error_ctor_code x_text code file line)
  else mret tt.

(** ** class init (curl++.cpp 37-45); the code of the set-up is dropped. *)

Definition init_ctor (flags : Z) : M unit := curl_global_init flags;; mret tt.

Definition init_dtor : M unit := curl_global_cleanup.

(** ** class easy (curl++.h 52-121, curl++.cpp 50-214) *)

Record easy := { handle_ : Z }.

Definition acquire_msg : string := "Failed to aquire CURL easy handle".

(** [easy::easy()] *)
Definition easy_ctor : M easy :=
  h ← curl_easy_init;
  if decide (h = nullptr) then throw_new (ERROR acquire_msg 54)
  else mret {| handle_ := h |}.

(** [easy::easy(CURL * handle)] *)
Definition easy_ctor_handle (handle : Z) : M easy :=
  if decide (handle = nullptr) then throw_new (ERROR acquire_msg 61)
  else mret {| handle_ := handle |}.

(** [easy::~easy()] *)
Definition easy_dtor (this : easy) : M unit := curl_easy_cleanup (handle_ this).

(** [easy(easy&& other) = default]: the member is moved, and moving a raw
    pointer copies it.  The result is the new object and [other] after the
    move. *)
Definition easy_move_ctor (other : easy) : easy * easy :=
  ({| handle_ := handle_ other |}, other).

(** [easy& operator = (easy&& other) = default]: [this] and [other] after
    the assignment. *)
Definition easy_move_assign (this other : easy) : easy * easy :=
  ({| handle_ := handle_ other |}, other).

(** [std::swap(handle_, other.handle_)]: [this] and [other] afterwards. *)
Definition easy_swap (this other : easy) : easy * easy :=
  ({| handle_ := handle_ other |}, {| handle_ := handle_ this |}).

(** The four overloads of [easy::set]; the last two are the templates of
    curl++.h, chosen for a pointer to an object and for a function pointer. *)
Definition easy_set_long (this : easy) (option : CURLoption) (value : Z)
    : M unit :=
  CHECK (FILE_cpp E) 71 "curl_easy_setopt(handle_, option, value)"
    (curl_easy_setopt (handle_ this) option (VLong value)).

Definition easy_set_string (this : easy) (option : CURLoption) (value : string)
    : M unit :=
  CHECK (FILE_cpp E) 76 "curl_easy_setopt(handle_, option, value.c_str())"
    (curl_easy_setopt (handle_ this) option (VStr (c_str value))).

Definition easy_set_ptr (this : easy) (option : CURLoption) (value : Z)
    : M unit :=
  CHECK (FILE_h E) 198 "curl_easy_setopt(handle_, option, value)"
    (curl_easy_setopt (handle_ this) option (VPtr value)).

Definition easy_set_fn (this : easy) (option : CURLoption) (value : writefunc)
    : M unit :=
  CHECK (FILE_h E) 203 "curl_easy_setopt(handle_, option, value)"
    (curl_easy_setopt (handle_ this) option (VFun value)).

(** Overload resolution: the kind of the value picks the overload. *)
Definition easy_set (this : easy) (option : CURLoption) (value : optval)
    : M unit :=
  match value with
  | VLong z => easy_set_long this option z
  | VStr s => easy_set_string this option s
  | VPtr p => easy_set_ptr this option p
  | VFun f => easy_set_fn this option f
  end.

(** Where the [CHECK] of the chosen overload stands. *)
Definition set_file (value : optval) : string :=
  match value with
  | VLong _ | VStr _ => FILE_cpp E
  | VPtr _ | VFun _ => FILE_h E
  end.

Definition set_line (value : optval) : Z :=
  match value with
  | VLong _ => 71
  | VStr _ => 76
  | VPtr _ => 198
  | VFun _ => 203
  end.

(** [add_cookie] for a C string and for a [const std::string&] *)
Definition easy_add_cookie_cstr (this : easy) (cookie : string) : M unit :=
  CHECK (FILE_cpp E) 81 "curl_easy_setopt(handle_, CURLOPT_COOKIELIST, cookie)"
    (curl_easy_setopt (handle_ this) CURLOPT_COOKIELIST (VStr cookie)).

Definition easy_add_cookie_string (this : easy) (cookie : string) : M unit :=
  CHECK (FILE_cpp E) 86
    "curl_easy_setopt(handle_, CURLOPT_COOKIELIST, cookie.c_str())"
    (curl_easy_setopt (handle_ this) CURLOPT_COOKIELIST (VStr (c_str cookie))).

(** [add_cookie(const std::map<std::string, std::string>&)].  The map is
    given by its entries in the order the range-for visits them.

    First loop: the largest [name.size() + value.size() + sizeof("Set-Cookie: =;\n")],
    which only sizes [cookie.reserve(size+1)]. *)
Definition cookie_reserve_size (cookiemap : list (string * string)) : Z :=
  foldl (λ size c, Z.max size (size_t (strlen c.1 + strlen c.2 + 16)))
        0 cookiemap.

(** One round of the second loop builds the line in [cookie]. *)
Definition cookie_line (c : string * string) : string :=
  let cookie := "" in
  let cookie := cookie +:+ "Set-Cookie: " in
  let cookie := cookie +:+ c.1 in
  let cookie := cookie +:+ "=" in
  let cookie := cookie +:+ c.2 in
  let cookie := cookie +:+ ";" in
  cookie.

(** Second loop: [cookie.c_str()] is submitted, and the code returned by
    [curl_easy_setopt] is dropped. *)
Fixpoint add_cookie_loop (this : easy) (cookiemap : list (string * string))
    : M unit :=
  match cookiemap with
  | [] => mret tt
  | c :: rest =>
      curl_easy_setopt (handle_ this) CURLOPT_COOKIELIST
        (VStr (c_str (cookie_line c)));;
      add_cookie_loop this rest
  end.

Definition easy_add_cookie_map (this : easy) (cookiemap : list (string * string))
    : M unit :=
  let size := cookie_reserve_size cookiemap in
  let capacity := size_t (size + 1) in
  add_cookie_loop this cookiemap.

(** [easy::duplicate] *)
Definition easy_duplicate (this : easy) : M easy :=
  h ← curl_easy_duphandle (handle_ this);
  easy_ctor_handle h.

Definition easy_pause (this : easy) (bitmask : Z) : M unit :=
  CHECK (FILE_cpp E) 124 "curl_easy_pause(handle_, bitmask)"
    (curl_easy_pause (handle_ this) bitmask).

Definition easy_perform (this : easy) : M unit :=
  CHECK (FILE_cpp E) 129 "curl_easy_perform(handle_)"
    (curl_easy_perform (handle_ this)).


(** [recv_into(std::string& buffer)]; [buffer] is the string's address. *)
Definition easy_recv_into_string (this : easy) (buffer : Z) : M unit :=
  easy_set_ptr this CURLOPT_WRITEDATA buffer;;
  easy_set_fn this CURLOPT_WRITEFUNCTION WF_string;;
  easy_perform this.

(** [easy::get]: the local [buffer] lives at a new address.  On
    [return buffer;] the copy is elided, as the compilers of the build do:
    the local is the returned object itself, which the caller then holds
    at that address.  When the call is left by an exception the local is
    destroyed. *)
Definition easy_get (this : easy) : M string := λ w,
  let buffer := fresh w in
  let w0 := bump (with_strings (<[buffer := ""]> (w_strings w)) w) in
  match easy_recv_into_string this buffer w0 with
  | (Ok _, w1) =>
      (match w_strings w1 !! buffer with Some s => Ok s | None => Undefined end,
       w1)
  | (Throw e, w1) => (Throw e, with_strings (delete buffer (w_strings w1)) w1)
  | (Undefined, w1) => (Undefined, w1)
  end.

End Wrappers.

(** The comparison operators (curl++.cpp 166-194). *)
Definition easy_eq (this other : easy) : bool :=
  bool_decide (handle_ this = handle_ other).
Definition easy_ne (this other : easy) : bool :=
  bool_decide (handle_ this ≠ handle_ other).
Definition easy_lt (this other : easy) : bool :=
  bool_decide (handle_ this < handle_ other).
Definition easy_gt (this other : easy) : bool :=
  bool_decide (handle_ this > handle_ other).
Definition easy_le (this other : easy) : bool :=
  bool_decide (handle_ this ≤ handle_ other).
Definition easy_ge (this other : easy) : bool :=
  bool_decide (handle_ this >= handle_ other).

(** [easy::handle] *)
Definition easy_handle (this : easy) : Z := handle_ this.

(** ** class list (curl++.h 131-158, curl++.cpp 218-256) *)

Record curl_list := { list_ : Z }.

(** [list::list()] and [list::list(curl_slist * sl)] *)
Definition list_ctor : curl_list := {| list_ := nullptr |}.

Definition list_ctor_slist (sl : Z) : curl_list := {| list_ := sl |}.

(** [list::operator*] *)
Definition list_deref (this : curl_list) : Z := list_ this.

Section ListWrapper.
Variable E : env.

(** [list::~list()] *)
Definition list_dtor (this : curl_list) : M unit :=
  curl_slist_free_all (list_ this).

(** [list_ = curl_slist_append(list_, value);] gives [this] after the call. *)
Definition list_append (this : curl_list) (value : string) : M curl_list :=
  sl ← curl_slist_append E (list_ this) value;
  mret {| list_ := sl |}.

(** [append(std::string&)] forwards [value.c_str()]. *)
Definition list_append_string (this : curl_list) (value : string)
    : M curl_list :=
  list_append this (c_str value).

(** The two [operator +=] append and return [*this]; the one for a
    [const std::string&] appends [value.c_str()]. *)
Definition list_plus_eq (this : curl_list) (value : string) : M curl_list :=
  list_append this value.

Definition list_plus_eq_string (this : curl_list) (value : string)
    : M curl_list :=
  list_append this (c_str value).

(** One call that appends to a list, by any of the four members. *)
Inductive append_call :=
| Append_cstr (value : string)       (* append(const char* )  *)
| Append_string (value : string)     (* append(std::string&) *)
| PlusEq_cstr (value : string)       (* operator += (const char* ) *)
| PlusEq_string (value : string).    (* operator += (const std::string&) *)

Definition list_call (this : curl_list) (c : append_call) : M curl_list :=
  match c with
  | Append_cstr v => list_append this v
  | Append_string v => list_append_string this v
  | PlusEq_cstr v => list_plus_eq this v
  | PlusEq_string v => list_plus_eq_string this v
  end.

(** A caller making the calls of [calls] one after the other. *)
Fixpoint list_calls (this : curl_list) (calls : list append_call)
    : M curl_list :=
  match calls with
  | [] => mret this
  | c :: rest => this' ← list_call this c; list_calls this' rest
  end.

(** A caller appending the values of [values] one after the other. *)
Fixpoint list_append_all (this : curl_list) (values : list string)
    : M curl_list :=
  match values with
  | [] => mret this
  | v :: rest => this' ← list_append this v; list_append_all this' rest
  end.

End ListWrapper.

(** ** Reading the record of native calls *)

(** How often [curl_easy_cleanup] was called on [h]. *)
Fixpoint cleanup_count (h : Z) (tr : list call) : nat :=
  match tr with
  | [] => 0%nat
  | Call_easy_cleanup h' :: rest =>
      ((if decide (h' = h) then 1 else 0) + cleanup_count h rest)%nat
  | _ :: rest => cleanup_count h rest
  end.

(** ** A sample environment

    Every call succeeds, a transfer delivers ["y"] as one chunk of one byte,
    and a chain moves on every append. *)
Definition sample_env : env := {|
  FILE_cpp := "curl++.cpp";
  FILE_h := "curl++.h";
  global_init_code := λ _ _, CURLE_OK;
  easy_init_ok := λ _, true;
  duphandle_ok := λ _ _, true;
  setopt_code := λ _ _ _ _, CURLE_OK;
  pause_code := λ _ _ _, CURLE_OK;
  perform_script := λ _ _, ([ {| c_data := "y"; c_size := 1; c_nmemb := 1 |} ], CURLE_OK);
  other_write_ret := λ _ c, strlen (c_data c);
  slist_relocates := λ _ _, true;
  easy_strerror := λ _, "No error"
|}.

(** The same library with every answer a failure: no handle is found and
    every code is a failure (43 is [CURLE_BAD_FUNCTION_ARGUMENT]). *)
Definition failing_env : env := {|
  FILE_cpp := "curl++.cpp";
  FILE_h := "curl++.h";
  global_init_code := λ _ _, 2;
  easy_init_ok := λ _, false;
  duphandle_ok := λ _ _, false;
  setopt_code := λ _ _ _ _, 43;
  pause_code := λ _ _ _, 43;
  perform_script := λ _ _, ([], 43);
  other_write_ret := λ _ _, 0;
  slist_relocates := λ _ _, false;
  easy_strerror := λ _, "A libcurl function was given a bad argument"
|}.

Definition empty_world : world := {|
  w_trace := []; w_next := 1%positive; w_easy := ∅; w_slist := ∅;
  w_strings := ∅
|}.

(** The length of a diagnostic's expansion, and the length plus one, fit
    the [int] they are computed in. *)
Definition fits_int (expansion : string) : Prop := strlen expansion < INT_MAX.

(** The stringified argument of the [CHECK] of each [set] overload. *)
Definition set_text (value : optval) : string :=
  match value with
  | VStr _ => "curl_easy_setopt(handle_, option, value.c_str())"
  | _ => "curl_easy_setopt(handle_, option, value)"
  end.

(** The message of a thrown located error, as [what()] gives it. *)
Definition what_loc (file : string) (line : Z) (msg : string) : string :=
  "File: " +:+ file +:+ " - Line: " +:+ pretty line +:+ LF +:+ msg.

Definition what_code (file : string) (line : Z) (msg errstr : string)
    : string :=
  "File: " +:+ file +:+ " - Line: " +:+ pretty line +:+ LF +:+ msg +:+ LF
  +:+ "----------" +:+ LF +:+ errstr.

(** [w'] is [w] or a world reached from it: the allocator only moves on. *)
Definition later (w w' : world) : Prop := (w_next w ≤ w_next w')%positive.

Definition monotone {A} (m : M A) : Prop := ∀ w, later w (m w).2.

(** [x] was acquired from the library in [w], by the default constructor or
    by [duplicate], leaving [w']. *)
Definition acquired (E : env) (w : world) (x : easy) (w' : world) : Prop :=
  easy_ctor E w = (Ok x, w') ∨ ∃ o, easy_duplicate E o w = (Ok x, w').

(** The chunks handed to a write callback according to a record of calls,
    and those handed over between two worlds. *)
Definition delivered (tr : list call) : list chunk :=
  omap (λ c, match c with Call_write _ c _ _ => Some c | _ => None end) tr.

Definition delivered_since (w w' : world) : list chunk :=
  delivered (drop (length (w_trace w)) (w_trace w')).

(** The record of the string callback taking [c] for the string at
    [buffer] and returning [size*nmemb]. *)
Definition write_event (buffer : Z) (c : chunk) : call :=
  Call_write (Some WF_string) c buffer (size_t (c_size c * c_nmemb c)).

(** The value [size*nmemb] is the number of bytes that were offered. *)
Definition fully_accepted (c : chunk) : Prop :=
  size_t (c_size c * c_nmemb c) = strlen (c_data c).

(** A world with one live handle, at address 5, and the same world with a
    string holding "x" at address 100. *)
Definition sample_world : world := {|
  w_trace := [Call_easy_init]; w_next := 6%positive;
  w_easy := {[ 5 := conf_default ]}; w_slist := ∅; w_strings := ∅
|}.

Definition prefilled_world : world := {|
  w_trace := [Call_easy_init]; w_next := 101%positive;
  w_easy := {[ 5 := conf_default ]}; w_slist := ∅;
  w_strings := {[ 100 := "x" ]}
|}.

(** ** The other two overloads of [recv_into] (curl++.cpp 151-163)

    [recv_into(std::ostream&)] and [recv_into(FILE* file)] differ from the
    string overload in the sink and in the callback they install.  The
    bodies of those two callbacks write to a stream and to a file, which
    this development does not model: each is a function known by its
    address, and what it returns is the environment's [other_write_ret]. *)
Definition easy_recv_into_stream (E : env) (writefunc_stream_ : Z)
    (this : easy) (stream : Z) : M unit :=
  easy_set_ptr E this CURLOPT_WRITEDATA stream;;
  easy_set_fn E this CURLOPT_WRITEFUNCTION (WF_other writefunc_stream_);;
  easy_perform E this.

Definition easy_recv_into_file (E : env) (writefunc_file_ : Z)
    (this : easy) (file : Z) : M unit :=
  easy_set_ptr E this CURLOPT_WRITEDATA file;;
  easy_set_fn E this CURLOPT_WRITEFUNCTION (WF_other writefunc_file_);;
  easy_perform E this.

(** [run] is one of the three overloads, called on the sink [data] and
    installing the callback [f]. *)
Definition recv_into_overload (E : env) (this : easy) (data : Z)
    (f : writefunc) (run : M unit) : Prop :=
  (f = WF_string ∧ run = easy_recv_into_string E this data)
  ∨ ∃ a, f = WF_other a
         ∧ (run = easy_recv_into_stream E a this data
            ∨ run = easy_recv_into_file E a this data).

(** The free function [swap(easy&, easy&)] (curl++.h 123-124). *)
Definition swap_easy (lhs rhs : easy) : easy * easy := easy_swap lhs rhs.

(** ** The remaining members of class list (curl++.h 139-158) *)

(** [list(list&& other) = default] and [operator = (list&&) = default]: as
    for [easy], the pointer member is copied and [other] keeps its own. *)
Definition list_move_ctor (other : curl_list) : curl_list * curl_list :=
  ({| list_ := list_ other |}, other).

Definition list_move_assign (this other : curl_list) : curl_list * curl_list :=
  ({| list_ := list_ other |}, other).

(** [std::swap(list_, other.list_)] and the free [swap(list&, list&)]. *)
Definition list_swap (this other : curl_list) : curl_list * curl_list :=
  ({| list_ := list_ other |}, {| list_ := list_ this |}).

Definition swap_list (lhs rhs : curl_list) : curl_list * curl_list :=
  list_swap lhs rhs.

(** How often [curl_slist_free_all] was called on [sl]. *)
Fixpoint free_all_count (sl : Z) (tr : list call) : nat :=
  match tr with
  | [] => 0%nat
  | Call_slist_free_all sl' :: rest =>
      ((if decide (sl' = sl) then 1 else 0) + free_all_count sl rest)%nat
  | _ :: rest => free_all_count sl rest
  end.

(** Every chain the library knows lives at an address it handed out. *)
Definition slist_allocated (w : world) : Prop :=
  ∀ p, is_Some (w_slist w !! p) → 0 < p < fresh w.

(** A second sample library: the transfer offers "ab" and then fails with
    code 28 ([CURLE_OPERATION_TIMEDOUT]); everything else succeeds. *)
Definition timeout_env : env := {|
  FILE_cpp := "curl++.cpp";
  FILE_h := "curl++.h";
  global_init_code := λ _ _, CURLE_OK;
  easy_init_ok := λ _, true;
  duphandle_ok := λ _ _, true;
  setopt_code := λ _ _ _ _, CURLE_OK;
  pause_code := λ _ _ _, CURLE_OK;
  perform_script :=
    λ _ _, ([ {| c_data := "ab"; c_size := 1; c_nmemb := 2 |} ], 28);
  other_write_ret := λ _ c, strlen (c_data c);
  slist_relocates := λ _ _, false;
  easy_strerror := λ _, "Timeout was reached"
|}.

(** The bytes the string callback takes from a chunk: the first
    [size*nmemb] of those offered. *)
Definition taken (c : chunk) : string :=
  str_take (Z.to_nat (size_t (c_size c * c_nmemb c))) (c_data c).

(** The world after an accepted [curl_easy_setopt]. *)
Definition after_setopt (h : Z) (option : CURLoption) (value : optval)
    (w : world) : world :=
  with_easy (<[h := conf_set option value (conf_of w h)]> (w_easy w))
    (log (Call_easy_setopt h option value) w).

(** A world holding two chains: ["a"] at address 1 and ["z"] at address 2. *)
Definition two_chain_world : world := {|
  w_trace := []; w_next := 3%positive; w_easy := ∅;
  w_slist := {[ 1 := ["a"]; 2 := ["z"] ]}; w_strings := ∅
|}.

(** The value as [curl_easy_setopt] receives it from [set]: the string
    overload passes [value.c_str()]. *)
Definition native_value (value : optval) : optval :=
  match value with
  | VStr s => VStr (c_str s)
  | _ => value
  end.

(** The argument of an appending call, and the entry the call appends: the
    argument itself for a C string, its [c_str()] for a [std::string]. *)
Definition call_value (c : append_call) : string :=
  match c with
  | Append_cstr v | Append_string v | PlusEq_cstr v | PlusEq_string v => v
  end.

Definition appended_entry (c : append_call) : string :=
  match c with
  | Append_cstr v | PlusEq_cstr v => v
  | Append_string v | PlusEq_string v => c_str v
  end.

(** The text "Set-Cookie: name=value;" of an entry. *)
Definition cookie_text (c : string * string) : string :=
  "Set-Cookie: " +:+ c.1 +:+ "=" +:+ c.2 +:+ ";".

(** A name that holds a [NUL]: the three characters a, NUL, b. *)
Definition name_with_nul : string := "a" +:+ String NUL "b".

(** * Properties *)

(** ** Strings *)

(** [String.app] is kept folded by [simpl]; this exposes one step of it. *)
Ltac str_step := unfold String.append; fold String.append; simpl.

Lemma str_app_assoc (a b c : string) : (a +:+ b) +:+ c = a +:+ (b +:+ c).
Proof. induction a as [|x a IH]; str_step; [done|]. by rewrite IH. Qed.

Lemma str_app_nil_r (a : string) : a +:+ "" = a.
Proof. induction a as [|x a IH]; str_step; [done|]. by rewrite IH. Qed.

Lemma str_length_app (a b : string) :
  String.length (a +:+ b) = (String.length a + String.length b)%nat.
Proof. induction a as [|x a IH]; str_step; [done|]. by rewrite IH. Qed.

Lemma strlen_app (a b : string) : strlen (a +:+ b) = strlen a + strlen b.
Proof. unfold strlen. rewrite str_length_app. lia. Qed.

Lemma strlen_nonneg (a : string) : 0 ≤ strlen a.
Proof. unfold strlen. lia. Qed.

Lemma str_take_app (a b : string) : str_take (String.length a) (a +:+ b) = a.
Proof. induction a as [|x a IH]; str_step; [by destruct b|]. by rewrite IH. Qed.

Lemma str_take_all (a : string) : str_take (String.length a) a = a.
Proof. rewrite <-(str_app_nil_r a) at 2. apply str_take_app. Qed.

Lemma str_app_LF_ne (a : string) : a ≠ a +:+ LF.
Proof.
  intros H. apply (f_equal String.length) in H.
  rewrite str_length_app in H. simpl in H. lia.
Qed.

Lemma c_str_nul_free (s : string) : nul_free s → c_str s = s.
Proof.
  induction s as [|c s IH]; simpl; [done|]. intros [Hc Hs].
  rewrite decide_False by done. by rewrite IH.
Qed.

Lemma nul_free_app (a b : string) :
  nul_free a → nul_free b → nul_free (a +:+ b).
Proof.
  induction a as [|c a IH]; str_step; [done|]. intros [Hc Ha] Hb.
  split; [done|]. by apply IH.
Qed.

(** A C reader never sees more than the string holds, and what it sees
    holds no [NUL]. *)
Lemma c_str_is_nul_free (s : string) : nul_free (c_str s).
Proof.
  induction s as [|c s IH]; simpl; [done|]. by case_decide.
Qed.

Lemma contains_mid (a sub b : string) : contains (a +:+ sub +:+ b) sub.
Proof. by exists a, b. Qed.

Lemma size_t_small (z : Z) : 0 ≤ z ≤ INT_MAX → size_t z = z.
Proof.
  intros [H0 H1]. unfold size_t. apply Z.mod_small.
  unfold INT_MAX in H1. lia.
Qed.

(** ** class error *)

(** The second [snprintf] is bounded by [size], not by the [size+1] bytes
    that were allocated: the last character of the expansion is not stored. *)
Lemma snprintf_size_fits (s : string) :
  fits_int s → snprintf_size s = strlen s.
Proof.
  unfold fits_int. intros Hfit. unfold snprintf_size.
  by rewrite decide_True by lia.
Qed.

Lemma snprintf_into_bound (s : string) :
  snprintf_into (strlen s + 2) (strlen s + 1) (s +:+ LF) = Some s.
Proof.
  pose proof (strlen_nonneg s) as Hs.
  unfold snprintf_into. rewrite strlen_app.
  change (strlen LF) with 1.
  rewrite decide_False by lia.
  rewrite Z.min_r by lia.
  rewrite decide_True by lia.
  replace (Z.to_nat (strlen s + 1 - 1)) with (String.length s)
    by (unfold strlen; lia).
  by rewrite str_take_app.
Qed.

Lemma error_format_drops_last (s : string) :
  fits_int (s +:+ LF) → error_format (s +:+ LF) = Some {| buf_ := s |}.
Proof.
  intros Hfit. unfold error_format.
  rewrite snprintf_size_fits by done.
  unfold fits_int in Hfit. rewrite strlen_app in *.
  change (strlen LF) with 1 in *.
  pose proof (strlen_nonneg s) as Hs.
  rewrite decide_True by lia.
  rewrite (size_t_small (strlen s + 1)) by lia.
  rewrite (size_t_small (strlen s + 1 + 1)) by lia.
  replace (strlen s + 1 + 1) with (strlen s + 2) by lia.
  by rewrite snprintf_into_bound.
Qed.

Lemma fmt_loc_what (file : string) (line : Z) (msg : string) :
  fmt_loc file line msg = what_loc file line msg +:+ LF.
Proof. unfold fmt_loc, what_loc. by rewrite !str_app_assoc. Qed.

Lemma fmt_code_what (file : string) (line : Z) (msg errstr : string) :
  fmt_code file line msg errstr = what_code file line msg errstr +:+ LF.
Proof. unfold fmt_code, what_code. by rewrite !str_app_assoc. Qed.

Lemma error_ctor_loc_what (msg file : string) (line : Z) :
  fits_int (fmt_loc file line msg) →
  error_ctor_loc msg file line = Some {| buf_ := what_loc file line msg |}.
Proof.
  unfold error_ctor_loc. rewrite fmt_loc_what. apply error_format_drops_last.
Qed.

Lemma error_ctor_code_what (E : env) (msg : string) (code : Z) (file : string)
    (line : Z) :
  fits_int (fmt_code file line msg (easy_strerror E code)) →
  error_ctor_code E msg code file line
  = Some {| buf_ := what_code file line msg (easy_strerror E code) |}.
Proof.
  unfold error_ctor_code. rewrite fmt_code_what.
  apply error_format_drops_last.
Qed.

Lemma what_loc_contains (file : string) (line : Z) (msg : string) :
  contains (what_loc file line msg) file
  ∧ contains (what_loc file line msg) (pretty line).
Proof.
  unfold what_loc. split.
  - apply contains_mid.
  - exists ("File: " +:+ file +:+ " - Line: "), (LF +:+ msg).
    by rewrite !str_app_assoc.
Qed.

Lemma what_code_contains (file : string) (line : Z) (msg errstr : string) :
  contains (what_code file line msg errstr) file
  ∧ contains (what_code file line msg errstr) (pretty line).
Proof.
  unfold what_code. split.
  - apply contains_mid.
  - exists ("File: " +:+ file +:+ " - Line: "),
      (LF +:+ msg +:+ LF +:+ "----------" +:+ LF +:+ errstr).
    by rewrite !str_app_assoc.
Qed.

(** ** Running the native calls and the macros *)

Lemma bind_run {A B} (m : M A) (f : A → M B) (w w' : world) (a : A) :
  m w = (Ok a, w') → (m ≫= f) w = f a w'.
Proof. intros H. unfold mbind, M_bind. by rewrite H. Qed.

Lemma curl_easy_setopt_run (E : env) (h : Z) (o : CURLoption) (v : optval)
    (w : world) :
  ∃ w', curl_easy_setopt E h o v w = (Ok (setopt_code E (w_trace w) h o v), w')
        ∧ w_trace w' = w_trace w ++ [Call_easy_setopt h o v]
        ∧ w_next w' = w_next w
        ∧ w_strings w' = w_strings w.
Proof. unfold curl_easy_setopt. case_decide; eauto. Qed.

Lemma CHECK_ok (E : env) (file : string) (line : Z) (text : string) (x : M Z)
    (w w' : world) :
  x w = (Ok CURLE_OK, w') → CHECK E file line text x w = (Ok tt, w').
Proof.
  intros H. unfold CHECK. rewrite (bind_run _ _ _ _ _ H).
  by rewrite decide_False by (by intros []).
Qed.

Lemma CHECK_fail (E : env) (file : string) (line : Z) (text : string) (x : M Z)
    (w w' : world) (code : Z) :
  x w = (Ok code, w') → code ≠ CURLE_OK →
  fits_int (fmt_code file line text (easy_strerror E code)) →
  CHECK E file line text x w
  = (Throw {| buf_ := what_code file line text (easy_strerror E code) |}, w').
Proof.
  intros H Hcode Hfit. unfold CHECK. rewrite (bind_run _ _ _ _ _ H).
  rewrite decide_True by done. by rewrite error_ctor_code_what.
Qed.

Lemma easy_set_is_CHECK (E : env) (this : easy) (option : CURLoption)
    (value : optval) :
  easy_set E this option value
  = CHECK E (set_file E value) (set_line value) (set_text value)
      (curl_easy_setopt E (handle_ this) option (native_value value)).
Proof. by destruct value. Qed.

Lemma cookie_line_literal (c : string * string) :
  cookie_line c = "Set-Cookie: " +:+ c.1 +:+ "=" +:+ c.2 +:+ ";".
Proof.
  unfold cookie_line. change ("" +:+ "Set-Cookie: ") with "Set-Cookie: ".
  by rewrite !str_app_assoc.
Qed.

Lemma add_cookie_loop_run (E : env) (this : easy)
    (cookiemap : list (string * string)) (w : world) :
  ∃ w', add_cookie_loop E this cookiemap w = (Ok tt, w')
        ∧ w_trace w' = w_trace w ++
            map (λ c, Call_easy_setopt (handle_ this) CURLOPT_COOKIELIST
                        (VStr (c_str (cookie_line c)))) cookiemap.
Proof.
  revert w. induction cookiemap as [|c rest IH]; intros w.
  - exists w. simpl. by rewrite app_nil_r.
  - destruct (curl_easy_setopt_run E (handle_ this) CURLOPT_COOKIELIST
                (VStr (c_str (cookie_line c))) w) as (w1 & Hrun & Htr & _).
    destruct (IH w1) as (w' & Hloop & Htr').
    exists w'. split.
    + simpl. by rewrite (bind_run _ _ _ _ _ Hrun).
    + rewrite Htr', Htr. simpl. by rewrite <-app_assoc.
Qed.

Lemma cookie_text_nul_free (c : string * string) :
  nul_free c.1 → nul_free c.2 → nul_free (cookie_text c).
Proof.
  intros H1 H2. unfold cookie_text.
  apply nul_free_app; [by vm_compute|].
  apply nul_free_app; [done|].
  apply nul_free_app; [by vm_compute|].
  apply nul_free_app; [done|by vm_compute].
Qed.

Lemma strlen_cookie_line (c : string * string) :
  strlen (cookie_line c) = strlen c.1 + strlen c.2 + 14.
Proof.
  rewrite cookie_line_literal, !strlen_app.
  change (strlen "Set-Cookie: ") with 12. change (strlen "=") with 1.
  change (strlen ";") with 1. lia.
Qed.

Lemma cookie_reserve_size_ge (cookiemap : list (string * string)) :
  ∀ (acc : Z) (c : string * string),
    c ∈ cookiemap →
    size_t (strlen c.1 + strlen c.2 + 16)
    ≤ foldl (λ size c, Z.max size (size_t (strlen c.1 + strlen c.2 + 16)))
        acc cookiemap.
Proof.
  assert (Hacc : ∀ l acc,
            acc ≤ foldl (λ size c,
                     Z.max size (size_t (strlen c.1 + strlen c.2 + 16))) acc l).
  { induction l as [|c l IH]; intros acc; simpl; [lia|].
    etrans; [|apply IH]. lia. }
  induction cookiemap as [|c' rest IH]; intros acc c Hin.
  - by apply elem_of_nil in Hin.
  - apply elem_of_cons in Hin as [->|Hin]; simpl.
    + etrans; [|apply Hacc]. lia.
    + by apply IH.
Qed.

(** The first loop of the mapping overload reserves room for every line
    the second loop builds, terminator included. *)
Lemma cookie_line_fits_reserve (cookiemap : list (string * string))
    (c : string * string) :
  c ∈ cookiemap → strlen c.1 + strlen c.2 + 16 < 2 ^ 64 →
  strlen (cookie_line c) + 1 < cookie_reserve_size cookiemap + 1.
Proof.
  intros Hin Hsmall.
  pose proof (cookie_reserve_size_ge cookiemap 0 c Hin) as Hge.
  fold (cookie_reserve_size cookiemap) in Hge.
  unfold size_t in Hge. rewrite Z.mod_small in Hge.
  - rewrite strlen_cookie_line. lia.
  - pose proof (strlen_nonneg c.1). pose proof (strlen_nonneg c.2). lia.
Qed.

(** ** Claims about construction, options and cookies *)

(** C4: constructing an [easy] from the null handle throws the acquisition
    error (the located error made by [ERROR] at line 61, whenever its text
    fits an [int]) and touches nothing; constructing it from any other
    handle returns an object holding exactly that handle, whose destructor
    releases that handle. *)
Theorem easy_ctor_handle_null_throws_else_owns (E : env) (handle : Z)
    (w : world) :
  (handle = nullptr → fits_int (fmt_loc (FILE_cpp E) 61 acquire_msg) →
   ∃ e, easy_ctor_handle E handle w = (Throw e, w)
        ∧ ERROR E acquire_msg 61 = Some e
        ∧ error_what e = what_loc (FILE_cpp E) 61 acquire_msg)
  ∧ (handle ≠ nullptr →
     easy_ctor_handle E handle w = (Ok {| handle_ := handle |}, w)
     ∧ w_trace (easy_dtor {| handle_ := handle |} w).2
       = w_trace w ++ [Call_easy_cleanup handle]).
Proof.
  unfold easy_ctor_handle, ERROR. split.
  - intros -> Hfit. rewrite decide_True by done.
    rewrite error_ctor_loc_what by done. eauto.
  - intros Hne. by rewrite decide_False by done.
Qed.

(** Both cases on the sample library: the null handle and the handle 7. *)
Lemma easy_ctor_handle_null_throws_else_owns_witness :
  (∃ e, easy_ctor_handle sample_env 0 empty_world = (Throw e, empty_world)
        ∧ error_what e
          = what_loc "curl++.cpp" 61 "Failed to aquire CURL easy handle")
  ∧ easy_ctor_handle sample_env 7 empty_world
    = (Ok {| handle_ := 7 |}, empty_world).
Proof.
  destruct (easy_ctor_handle_null_throws_else_owns sample_env 0 empty_world)
    as [Hnull _].
  destruct (easy_ctor_handle_null_throws_else_owns sample_env 7 empty_world)
    as [_ Hown].
  split.
  - destruct Hnull as (e & H1 & _ & H3); [reflexivity | by vm_compute |].
    exists e. split; assumption.
  - apply Hown. discriminate.
Defined.

(** C10: whatever handle the native clone call returns, [duplicate] throws
    the acquisition error when it is null (given that the error's text fits
    an [int]) and otherwise returns a wrapper around exactly that handle; a
    wrapper that [duplicate] returns never holds the null handle. *)
Theorem easy_duplicate_never_null (E : env) (this : easy) (w w' : world)
    (h : Z) :
  curl_easy_duphandle E (handle_ this) w = (Ok h, w') →
  (h = nullptr → fits_int (fmt_loc (FILE_cpp E) 61 acquire_msg) →
   ∃ e, easy_duplicate E this w = (Throw e, w')
        ∧ error_what e = what_loc (FILE_cpp E) 61 acquire_msg)
  ∧ (h ≠ nullptr → easy_duplicate E this w = (Ok {| handle_ := h |}, w'))
  ∧ (∀ d w'', easy_duplicate E this w = (Ok d, w'') →
     handle_ d ≠ nullptr ∧ handle_ d = h ∧ w'' = w').
Proof.
  intros Hdup. unfold easy_duplicate. rewrite (bind_run _ _ _ _ _ Hdup).
  unfold easy_ctor_handle, ERROR. split; [|split].
  - intros -> Hfit. rewrite decide_True by done.
    rewrite error_ctor_loc_what by done. eauto.
  - intros Hne. by rewrite decide_False by done.
  - intros d w''. case_decide as Hh.
    + destruct (error_ctor_loc _ _ _); discriminate.
    + intros [= <- <-]. done.
Qed.

(** Both cases on a run: a clone call that finds no handle, and one that
    hands out address 6. *)
Lemma easy_duplicate_never_null_witness :
  (∃ e w', easy_duplicate failing_env {| handle_ := 5 |} sample_world
           = (Throw e, w'))
  ∧ (∃ w', easy_duplicate sample_env {| handle_ := 5 |} sample_world
           = (Ok {| handle_ := 6 |}, w')).
Proof.
  split.
  - destruct (easy_duplicate_never_null failing_env {| handle_ := 5 |}
                sample_world _ 0 eq_refl) as (Hnull & _ & _).
    destruct Hnull as (e & H & _); [reflexivity | by vm_compute |].
    eauto.
  - destruct (easy_duplicate_never_null sample_env {| handle_ := 5 |}
                sample_world _ 6 eq_refl) as (_ & Hok & _).
    eexists. apply Hok. discriminate.
Defined.

(** C5: for every option and value, [set] ends in the world the native
    option-setting call left (the call receives the value, a string by its
    [c_str()]).  When that call answered [CURLE_OK] it
    returns; when it answered anything else it throws (and it throws only
    then), and, the error's text fitting an [int], the message starts with
    the file and the line of the [CHECK] that was run. *)
Theorem easy_set_silent_or_located (E : env) (this : easy)
    (option : CURLoption) (value : optval) (w : world) :
  let code :=
    setopt_code E (w_trace w) (handle_ this) option (native_value value) in
  let file := set_file E value in
  let line := set_line value in
  let errstr := easy_strerror E code in
  ∃ w',
    curl_easy_setopt E (handle_ this) option (native_value value) w
    = (Ok code, w')
    ∧ (code = CURLE_OK → easy_set E this option value w = (Ok tt, w'))
    ∧ (code ≠ CURLE_OK → fits_int (fmt_code file line (set_text value) errstr) →
       ∃ e, easy_set E this option value w = (Throw e, w')
            ∧ error_what e = what_code file line (set_text value) errstr
            ∧ contains (error_what e) file
            ∧ contains (error_what e) (pretty line))
    ∧ (∀ e w'', easy_set E this option value w = (Throw e, w'') →
       code ≠ CURLE_OK).
Proof.
  intros code file line errstr.
  destruct (curl_easy_setopt_run E (handle_ this) option (native_value value) w)
    as (w' & Hrun & _).
  fold code in Hrun. exists w'. rewrite easy_set_is_CHECK.
  split; [done|]. split; [|split].
  - intros Hok. rewrite Hok in Hrun. by apply CHECK_ok.
  - intros Hne Hfit. eexists. split; [by apply CHECK_fail|].
    split; [done|]. apply what_code_contains.
  - intros e w'' Hthrow Hok. rewrite Hok in Hrun.
    by rewrite (CHECK_ok _ _ _ _ _ _ _ Hrun) in Hthrow.
Qed.

(** Both cases on a run: an accepted option, and a refused one whose error
    names curl++.cpp and line 71. *)
Lemma easy_set_silent_or_located_witness :
  (∃ w', easy_set sample_env {| handle_ := 5 |} CURLOPT_COOKIELIST
           (VStr "ALL") sample_world = (Ok tt, w'))
  ∧ (∃ e w', easy_set failing_env {| handle_ := 5 |} (CURLOPT_other 64)
               (VLong 1) sample_world = (Throw e, w')
             ∧ contains (error_what e) "curl++.cpp"
             ∧ contains (error_what e) "71").
Proof.
  split.
  - destruct (easy_set_silent_or_located sample_env {| handle_ := 5 |}
                CURLOPT_COOKIELIST (VStr "ALL") sample_world)
      as (w' & _ & Hok & _).
    exists w'. apply Hok. reflexivity.
  - destruct (easy_set_silent_or_located failing_env {| handle_ := 5 |}
                (CURLOPT_other 64) (VLong 1) sample_world)
      as (w' & _ & _ & Hfail & _).
    destruct Hfail as (e & H1 & _ & H3 & H4);
      [discriminate | by vm_compute |].
    exists e, w'. repeat split; assumption.
Defined.

(** C2, as the source has it: the mapping overload of [add_cookie] makes
    one native option-setting call per entry, in the order of the entries,
    each for [CURLOPT_COOKIELIST] with the C string of the text
    "Set-Cookie: name=value;", and makes no other native call.  When no
    name and no value holds a [NUL] the call receives that text itself;
    for the single entry a -> 1 that is the one call with
    "Set-Cookie: a=1;". *)
Theorem easy_add_cookie_map_calls (E : env) (this : easy)
    (cookiemap : list (string * string)) (w : world) :
  w_trace (easy_add_cookie_map E this cookiemap w).2
  = w_trace w ++
      map (λ c, Call_easy_setopt (handle_ this) CURLOPT_COOKIELIST
                  (VStr (c_str (cookie_text c))))
          cookiemap
  ∧ (Forall (λ c, nul_free c.1 ∧ nul_free c.2) cookiemap →
     w_trace (easy_add_cookie_map E this cookiemap w).2
     = w_trace w ++
         map (λ c, Call_easy_setopt (handle_ this) CURLOPT_COOKIELIST
                     (VStr ("Set-Cookie: " +:+ c.1 +:+ "=" +:+ c.2 +:+ ";")))
             cookiemap)
  ∧ w_trace (easy_add_cookie_map E this [("a", "1")] w).2
    = w_trace w ++
        [Call_easy_setopt (handle_ this) CURLOPT_COOKIELIST
           (VStr "Set-Cookie: a=1;")].
Proof.
  assert (Hgen : ∀ m, w_trace (easy_add_cookie_map E this m w).2
            = w_trace w ++
                map (λ c, Call_easy_setopt (handle_ this) CURLOPT_COOKIELIST
                            (VStr (c_str (cookie_text c)))) m).
  { intros m. unfold easy_add_cookie_map.
    destruct (add_cookie_loop_run E this m w) as (w' & Hrun & Htr).
    rewrite Hrun. simpl. rewrite Htr. f_equal.
    apply map_ext. intros c. unfold cookie_text.
    by rewrite cookie_line_literal. }
  split; [apply Hgen|]. split.
  - intros Hfree. rewrite Hgen. f_equal.
    induction Hfree as [|c rest [H1 H2] _ IH]; [done|]. simpl.
    f_equal; [|exact IH].
    by rewrite c_str_nul_free by (by apply cookie_text_nul_free).
  - by rewrite Hgen.
Qed.

(** Two entries without [NUL]: two calls, each with the text itself. *)
Lemma easy_add_cookie_map_calls_witness :
  w_trace (easy_add_cookie_map failing_env {| handle_ := 5 |}
             [("a", "1"); ("sid", "x y")] sample_world).2
  = w_trace sample_world ++
      [Call_easy_setopt 5 CURLOPT_COOKIELIST (VStr "Set-Cookie: a=1;");
       Call_easy_setopt 5 CURLOPT_COOKIELIST (VStr "Set-Cookie: sid=x y;")].
Proof.
  destruct (easy_add_cookie_map_calls failing_env {| handle_ := 5 |}
              [("a", "1"); ("sid", "x y")] sample_world) as (_ & Hfree & _).
  apply Hfree. repeat constructor; by vm_compute.
Defined.

(** C2 as it is worded fails on a name that holds a [NUL]: for the entry
    a NUL b -> 1 the native call receives "Set-Cookie: a", not the text
    built from the name and the value. *)
Lemma easy_add_cookie_map_cuts_at_nul :
  w_trace (easy_add_cookie_map sample_env {| handle_ := 5 |}
             [(name_with_nul, "1")] sample_world).2
  = w_trace sample_world ++
      [Call_easy_setopt 5 CURLOPT_COOKIELIST (VStr "Set-Cookie: a")]
  ∧ String.length (cookie_text (name_with_nul, "1")) = 18%nat
  ∧ VStr "Set-Cookie: a" ≠ VStr (cookie_text (name_with_nul, "1")).
Proof. repeat split; try reflexivity. by vm_compute. Qed.

(** C3: the mapping overload of [add_cookie] returns for every map,
    whatever the native calls answer; each single-cookie overload throws
    the error of its [CHECK] whenever the native call answers something
    else than [CURLE_OK] (the error's text fitting an [int]).  The native
    call receives the C string given, or the [c_str()] of the string. *)
Theorem easy_add_cookie_map_silent_single_throws (E : env) (this : easy)
    (w : world) :
  (∀ cookiemap, (easy_add_cookie_map E this cookiemap w).1 = Ok tt)
  ∧ (∀ cookie,
       let code := setopt_code E (w_trace w) (handle_ this)
                     CURLOPT_COOKIELIST (VStr cookie) in
       let code_s := setopt_code E (w_trace w) (handle_ this)
                       CURLOPT_COOKIELIST (VStr (c_str cookie)) in
       let text := "curl_easy_setopt(handle_, CURLOPT_COOKIELIST, cookie)" in
       let text_s :=
         "curl_easy_setopt(handle_, CURLOPT_COOKIELIST, cookie.c_str())" in
       (code ≠ CURLE_OK →
        fits_int (fmt_code (FILE_cpp E) 81 text (easy_strerror E code)) →
        ∃ e w', easy_add_cookie_cstr E this cookie w = (Throw e, w')
                ∧ error_what e
                  = what_code (FILE_cpp E) 81 text (easy_strerror E code))
       ∧ (code_s ≠ CURLE_OK →
          fits_int (fmt_code (FILE_cpp E) 86 text_s (easy_strerror E code_s)) →
          ∃ e w', easy_add_cookie_string E this cookie w = (Throw e, w')
                  ∧ error_what e
                    = what_code (FILE_cpp E) 86 text_s
                        (easy_strerror E code_s))).
Proof.
  split.
  - intros cookiemap. unfold easy_add_cookie_map.
    by destruct (add_cookie_loop_run E this cookiemap w) as (w' & -> & _).
  - intros cookie code code_s text text_s. split; intros Hne Hfit.
    + destruct (curl_easy_setopt_run E (handle_ this) CURLOPT_COOKIELIST
                  (VStr cookie) w) as (w' & Hrun & _).
      fold code in Hrun.
      unfold easy_add_cookie_cstr. erewrite CHECK_fail; eauto.
    + destruct (curl_easy_setopt_run E (handle_ this) CURLOPT_COOKIELIST
                  (VStr (c_str cookie)) w) as (w' & Hrun & _).
      fold code_s in Hrun.
      unfold easy_add_cookie_string. erewrite CHECK_fail; eauto.
Qed.

(** On a library that refuses every option the mapping overload returns
    and both single-cookie overloads throw. *)
Lemma easy_add_cookie_map_silent_single_throws_witness :
  (easy_add_cookie_map failing_env {| handle_ := 5 |} [("a", "1"); ("b", "2")]
     sample_world).1 = Ok tt
  ∧ (∃ e w', easy_add_cookie_cstr failing_env {| handle_ := 5 |}
               "Set-Cookie: a=1;" sample_world = (Throw e, w'))
  ∧ (∃ e w', easy_add_cookie_string failing_env {| handle_ := 5 |}
               "Set-Cookie: a=1;" sample_world = (Throw e, w')).
Proof.
  destruct (easy_add_cookie_map_silent_single_throws failing_env
              {| handle_ := 5 |} sample_world) as [Hmap Hsingle].
  split; [apply Hmap|].
  destruct (Hsingle "Set-Cookie: a=1;") as [Hc Hs].
  split.
  - destruct Hc as (e & w' & H & _); [discriminate|by vm_compute|].
    by exists e, w'.
  - destruct Hs as (e & w' & H & _); [discriminate|by vm_compute|].
    by exists e, w'.
Defined.

(** ** Claims about moving and about the error message *)

Lemma cleanup_count_app (h : Z) (tr1 tr2 : list call) :
  cleanup_count h (tr1 ++ tr2)
  = (cleanup_count h tr1 + cleanup_count h tr2)%nat.
Proof.
  induction tr1 as [|c tr1 IH]; [done|].
  destruct c; simpl; rewrite IH; lia.
Qed.

Lemma cleanup_count_self (h : Z) : cleanup_count h [Call_easy_cleanup h] = 1%nat.
Proof. simpl. by rewrite decide_True. Qed.

(** C1 does not hold of the source: the defaulted move constructor and move
    assignment copy [handle_] and leave the source as it was, so the
    destructor of the source calls [curl_easy_cleanup] on the handle it held
    before the move, and destroying both objects releases that handle
    twice. *)
Theorem easy_move_source_still_releases (h : Z) (this : easy) (w : world) :
  let by_ctor := easy_move_ctor {| handle_ := h |} in
  let by_assign := easy_move_assign this {| handle_ := h |} in
  handle_ by_ctor.1 = h ∧ handle_ by_ctor.2 = h
  ∧ handle_ by_assign.1 = h ∧ handle_ by_assign.2 = h
  ∧ w_trace (easy_dtor by_ctor.2 w).2 = w_trace w ++ [Call_easy_cleanup h]
  ∧ w_trace (easy_dtor by_assign.2 w).2 = w_trace w ++ [Call_easy_cleanup h]
  ∧ cleanup_count h
      (w_trace ((easy_dtor by_ctor.1;; easy_dtor by_ctor.2) w).2)
    = (cleanup_count h (w_trace w) + 2)%nat
  ∧ cleanup_count h
      (w_trace ((easy_dtor by_assign.1;; easy_dtor by_assign.2) w).2)
    = (cleanup_count h (w_trace w) + 2)%nat.
Proof.
  simpl. repeat split; try done;
    rewrite !cleanup_count_app, !cleanup_count_self; lia.
Qed.

(** The same on a run: a handle is acquired, moved from, and both objects
    are destroyed. *)
Example easy_move_double_release :
  (x ← easy_ctor sample_env;
   let moved := easy_move_ctor x in
   easy_dtor moved.1;; easy_dtor moved.2) empty_world
  = (Ok tt,
     {| w_trace := [Call_easy_init; Call_easy_cleanup 1; Call_easy_cleanup 1];
        w_next := 2%positive; w_easy := ∅; w_slist := ∅; w_strings := ∅ |}).
Proof. reflexivity. Qed.

(** C9 does not hold of the source: of the three constructors only the
    first keeps the whole message.  The two that format measure the
    expansion, allocate one byte more, and then format with the measured
    length as the bound, so [what()] is the expansion without its last
    character, the final newline of the format. *)
Theorem error_what_lacks_last_character :
  error_what <$> error_ctor_msg "msg" = Some "msg"
  ∧ fmt_loc "f.cpp" 7 "msg" = what_loc "f.cpp" 7 "msg" +:+ LF
  ∧ error_what <$> error_ctor_loc "msg" "f.cpp" 7
    = Some (what_loc "f.cpp" 7 "msg")
  ∧ error_what <$> error_ctor_loc "msg" "f.cpp" 7
    ≠ Some (fmt_loc "f.cpp" 7 "msg")
  ∧ fmt_code "f.cpp" 7 "msg" "No error"
    = what_code "f.cpp" 7 "msg" "No error" +:+ LF
  ∧ error_what <$> error_ctor_code sample_env "msg" 0 "f.cpp" 7
    = Some (what_code "f.cpp" 7 "msg" "No error")
  ∧ error_what <$> error_ctor_code sample_env "msg" 0 "f.cpp" 7
    ≠ Some (fmt_code "f.cpp" 7 "msg" "No error").
Proof. repeat split; try reflexivity; by vm_compute. Qed.

(** ** The allocator only moves on *)

Create HintDb mono.

Lemma later_refl (w : world) : later w w.
Proof. unfold later. lia. Qed.

Lemma later_trans (w1 w2 w3 : world) : later w1 w2 → later w2 w3 → later w1 w3.
Proof. unfold later. lia. Qed.

Lemma mono_ret {A} (a : A) : monotone (mret a).
Proof. intros w. apply later_refl. Qed.

Lemma mono_throw_new {A} (e : option curl_error) : monotone (@throw_new A e).
Proof. intros w. destruct e; apply later_refl. Qed.

Lemma mono_bind {A B} (m : M A) (f : A → M B) :
  monotone m → (∀ a, monotone (f a)) → monotone (m ≫= f).
Proof.
  intros Hm Hf w. specialize (Hm w). unfold mbind, M_bind.
  destruct (m w) as [[a| |] w1]; simpl in *; [|done..].
  eapply later_trans; [done|apply Hf].
Qed.

Ltac mono_native :=
  intros w; unfold later; simpl; repeat case_match; simpl; lia.

Lemma mono_gets {A} (f : world → A) : monotone (gets f).
Proof. mono_native. Qed.

Lemma mono_log (c : call) : monotone (modify (log c)).
Proof. mono_native. Qed.

Lemma mono_global_init (E : env) (flags : Z) :
  monotone (curl_global_init E flags).
Proof. mono_native. Qed.

Lemma mono_easy_init (E : env) : monotone (curl_easy_init E).
Proof. unfold curl_easy_init. mono_native. Qed.

Lemma mono_easy_duphandle (E : env) (h : Z) : monotone (curl_easy_duphandle E h).
Proof. unfold curl_easy_duphandle. mono_native. Qed.

Lemma mono_easy_cleanup (h : Z) : monotone (curl_easy_cleanup h).
Proof. mono_native. Qed.

Lemma mono_easy_setopt (E : env) (h : Z) (o : CURLoption) (v : optval) :
  monotone (curl_easy_setopt E h o v).
Proof. unfold curl_easy_setopt. mono_native. Qed.

Lemma mono_easy_pause (E : env) (h b : Z) : monotone (curl_easy_pause E h b).
Proof. mono_native. Qed.

Lemma mono_easy_reset (h : Z) : monotone (curl_easy_reset h).
Proof. mono_native. Qed.

Lemma mono_writefunc_string (ptr : string) (size nmemb buffer : Z) :
  monotone (recv_into_writefunc_string_ ptr size nmemb buffer).
Proof. unfold recv_into_writefunc_string_. mono_native. Qed.

Lemma mono_slist_append (E : env) (sl : Z) (v : string) :
  monotone (curl_slist_append E sl v).
Proof. unfold curl_slist_append. mono_native. Qed.

Lemma mono_slist_free_all (sl : Z) : monotone (curl_slist_free_all sl).
Proof. mono_native. Qed.

#[local] Hint Resolve mono_ret mono_throw_new mono_bind mono_gets mono_log
  mono_global_init mono_easy_init mono_easy_duphandle mono_easy_cleanup
  mono_easy_setopt mono_easy_pause mono_easy_reset mono_writefunc_string
  mono_slist_append mono_slist_free_all : mono.

Lemma mono_write_callback (E : env) (cf : conf) (c : chunk) :
  monotone (write_callback E cf c).
Proof.
  unfold write_callback. destruct (writefunction cf) as [[|a]|]; auto with mono.
Qed.

#[local] Hint Resolve mono_write_callback : mono.

Lemma mono_deliver (E : env) (h : Z) (chunks : list chunk) :
  monotone (deliver E h chunks).
Proof.
  induction chunks as [|c rest IH]; simpl; [auto with mono|].
  repeat (apply mono_bind; [auto with mono|intros ?]).
  case_decide; auto with mono.
Qed.

#[local] Hint Resolve mono_deliver : mono.

Lemma mono_easy_perform_native (E : env) (h : Z) :
  monotone (curl_easy_perform E h).
Proof.
  intros w. unfold curl_easy_perform.
  apply (later_trans _ (log (Call_easy_perform h) w)); [unfold later; simpl; lia|].
  apply mono_bind; [auto with mono|]. intros []; auto with mono.
Qed.

Lemma mono_CHECK (E : env) (file : string) (line : Z) (text : string)
    (x : M Z) :
  monotone x → monotone (CHECK E file line text x).
Proof.
  intros Hx. unfold CHECK. apply mono_bind; [done|].
  intros code. case_decide; auto with mono.
Qed.

#[local] Hint Resolve mono_easy_perform_native mono_CHECK : mono.

Lemma mono_easy_ctor (E : env) : monotone (easy_ctor E).
Proof.
  unfold easy_ctor. apply mono_bind; [auto with mono|].
  intros h. case_decide; auto with mono.
Qed.

Lemma mono_easy_ctor_handle (E : env) (h : Z) : monotone (easy_ctor_handle E h).
Proof. unfold easy_ctor_handle. case_decide; auto with mono. Qed.

Lemma mono_easy_set (E : env) (this : easy) (o : CURLoption) (v : optval) :
  monotone (easy_set E this o v).
Proof. rewrite easy_set_is_CHECK. auto with mono. Qed.

Lemma mono_easy_add_cookie_map (E : env) (this : easy)
    (cookiemap : list (string * string)) :
  monotone (easy_add_cookie_map E this cookiemap).
Proof.
  unfold easy_add_cookie_map.
  induction cookiemap as [|c rest IH]; simpl; auto with mono.
Qed.

Lemma mono_easy_duplicate (E : env) (this : easy) :
  monotone (easy_duplicate E this).
Proof.
  unfold easy_duplicate. apply mono_bind; [auto with mono|].
  intros h. apply mono_easy_ctor_handle.
Qed.

Lemma mono_easy_perform (E : env) (this : easy) : monotone (easy_perform E this).
Proof. unfold easy_perform. auto with mono. Qed.

Lemma mono_easy_recv_into_string (E : env) (this : easy) (buffer : Z) :
  monotone (easy_recv_into_string E this buffer).
Proof.
  unfold easy_recv_into_string.
  apply mono_bind; [apply (mono_easy_set E this _ (VPtr buffer))|intros _].
  apply mono_bind; [apply (mono_easy_set E this _ (VFun WF_string))|intros _].
  apply mono_easy_perform.
Qed.

Lemma mono_easy_get (E : env) (this : easy) : monotone (easy_get E this).
Proof.
  intros w. unfold easy_get.
  pose proof (mono_easy_recv_into_string E this (fresh w)
    (bump (with_strings (<[fresh w := ""]> (w_strings w)) w))) as H.
  destruct (easy_recv_into_string _ _ _ _) as [[[]| |] w1];
    unfold later in *; simpl in *; lia.
Qed.

Lemma mono_list_append (E : env) (this : curl_list) (v : string) :
  monotone (list_append E this v).
Proof. unfold list_append. auto with mono. Qed.

(** ** Claims about comparison *)

Lemma easy_ctor_fresh (E : env) (w w' : world) (x : easy) :
  easy_ctor E w = (Ok x, w') →
  handle_ x = fresh w ∧ (w_next w < w_next w')%positive.
Proof.
  unfold easy_ctor, curl_easy_init, mbind, M_bind.
  destruct (easy_init_ok E (w_trace w)).
  - rewrite decide_False by done. intros [= <- <-]. simpl. split; [done|lia].
  - rewrite decide_True by done. unfold ERROR.
    destruct (error_ctor_loc _ _ _); discriminate.
Qed.

Lemma easy_duplicate_fresh (E : env) (o : easy) (w w' : world) (x : easy) :
  easy_duplicate E o w = (Ok x, w') →
  handle_ x = fresh w ∧ (w_next w < w_next w')%positive.
Proof.
  unfold easy_duplicate, curl_easy_duphandle, easy_ctor_handle, mbind, M_bind.
  destruct (duphandle_ok E (w_trace w) (handle_ o)).
  - rewrite decide_False by done. intros [= <- <-]. simpl. split; [done|lia].
  - rewrite decide_True by done. unfold ERROR.
    destruct (error_ctor_loc _ _ _); discriminate.
Qed.

Lemma acquired_fresh (E : env) (w w' : world) (x : easy) :
  acquired E w x w' → handle_ x = fresh w ∧ (w_next w < w_next w')%positive.
Proof.
  intros [H|[o H]]; [by eapply easy_ctor_fresh|by eapply easy_duplicate_fresh].
Qed.

(** C8: each of the six operators is the corresponding comparison of the
    two [handle_] members and of nothing else (the operators read no world,
    so no option or transfer can change their answer); an object is equal
    to itself; and two objects acquired from the library one after the
    other, whatever happened in between, are not equal. *)
Theorem easy_compare_handle_identity :
  (∀ a b : easy,
     (easy_eq a b = true ↔ handle_ a = handle_ b)
     ∧ (easy_ne a b = true ↔ handle_ a ≠ handle_ b)
     ∧ (easy_lt a b = true ↔ handle_ a < handle_ b)
     ∧ (easy_gt a b = true ↔ handle_ a > handle_ b)
     ∧ (easy_le a b = true ↔ handle_ a ≤ handle_ b)
     ∧ (easy_ge a b = true ↔ handle_ a >= handle_ b))
  ∧ (∀ a : easy, easy_eq a a = true ∧ easy_ne a a = false)
  ∧ (∀ (E : env) (w w1 w1' w2 : world) (x y : easy),
       acquired E w x w1 → later w1 w1' → acquired E w1' y w2 →
       easy_eq x y = false ∧ easy_ne x y = true).
Proof.
  split; [|split].
  - intros a b. unfold easy_eq, easy_ne, easy_lt, easy_gt, easy_le, easy_ge.
    by rewrite !bool_decide_eq_true.
  - intros a. unfold easy_eq, easy_ne.
    rewrite bool_decide_eq_true, bool_decide_eq_false. split; [done|tauto].
  - intros E w w1 w1' w2 x y Hx Hlater Hy.
    apply acquired_fresh in Hx as [Hx Hlt], Hy as [Hy _].
    unfold easy_eq, easy_ne, later, fresh in *.
    rewrite bool_decide_eq_false, bool_decide_eq_true, Hx, Hy.
    split; intros [= Heq]; lia.
Qed.

(** Two default constructions in a row give unequal objects. *)
Lemma easy_compare_handle_identity_witness :
  ∃ x y w1 w2,
    easy_ctor sample_env empty_world = (Ok x, w1)
    ∧ easy_ctor sample_env w1 = (Ok y, w2)
    ∧ easy_eq x y = false ∧ easy_eq x x = true.
Proof.
  destruct easy_compare_handle_identity as (_ & Hrefl & Hne).
  eexists _, _, _, _. split; [reflexivity|]. split; [reflexivity|].
  split; [|apply Hrefl].
  eapply (Hne sample_env); [by left | apply later_refl | by left].
Defined.

(** ** Claims about the string list *)

Lemma fresh_not_null (w : world) : fresh w ≠ nullptr.
Proof. done. Qed.

Lemma curl_slist_append_run (E : env) (sl : Z) (v : string) (w : world)
    (items : list string) :
  chain_of w sl = Some items →
  ∃ head w',
    curl_slist_append E sl v w = (Ok head, w')
    ∧ head ≠ nullptr
    ∧ chain_of w' head = Some (items ++ [v])
    ∧ (head ≠ sl → w_slist w' !! sl = None)
    ∧ w_trace w' = w_trace w ++ [Call_slist_append sl v].
Proof.
  intros Hchain. unfold curl_slist_append. rewrite Hchain.
  eexists _, _. split; [reflexivity|].
  assert (Hhead : ∀ head : Z, head ≠ nullptr →
            head ≠ nullptr
            ∧ chain_of (bump (with_slist (<[head := items ++ [v]]>
                         (delete sl (w_slist w)))
                         (log (Call_slist_append sl v) w))) head
              = Some (items ++ [v])
            ∧ (head ≠ sl →
               w_slist (bump (with_slist (<[head := items ++ [v]]>
                         (delete sl (w_slist w)))
                         (log (Call_slist_append sl v) w))) !! sl = None)).
  { intros head Hne. split; [done|]. unfold chain_of. simpl.
    rewrite decide_False by done. rewrite lookup_insert_eq. split; [done|].
    intros Hsl. rewrite lookup_insert_ne by done. apply lookup_delete_eq. }
  case_decide as Hnull.
  - destruct (Hhead (fresh w) (fresh_not_null w)) as (? & ? & ?). done.
  - destruct (slist_relocates E (w_trace w) sl).
    + destruct (Hhead (fresh w) (fresh_not_null w)) as (? & ? & ?). done.
    + destruct (Hhead sl Hnull) as (? & ? & ?). done.
Qed.

Lemma list_append_run (E : env) (this : curl_list) (v : string) (w : world)
    (items : list string) :
  chain_of w (list_deref this) = Some items →
  ∃ head w',
    curl_slist_append E (list_ this) v w = (Ok head, w')
    ∧ list_append E this v w = (Ok {| list_ := head |}, w')
    ∧ chain_of w' head = Some (items ++ [v])
    ∧ (head ≠ list_ this → w_slist w' !! list_ this = None).
Proof.
  intros Hchain.
  destruct (curl_slist_append_run E (list_ this) v w items Hchain)
    as (head & w' & Hrun & _ & Hnew & Hold & _).
  exists head, w'. split; [done|]. split; [|done].
  unfold list_append. by rewrite (bind_run _ _ _ _ _ Hrun).
Qed.

Lemma list_call_is_append (E : env) (this : curl_list) (c : append_call) :
  list_call E this c = list_append E this (appended_entry c).
Proof. by destruct c. Qed.

Lemma appended_entry_nul_free (c : append_call) :
  nul_free (call_value c) → appended_entry c = call_value c.
Proof. destruct c; simpl; [done| |done|]; apply c_str_nul_free. Qed.

(** C7: on a list whose reference stands for the entries [items], each of
    the four appending members - [append] for a C string and for a
    [std::string], and the two [operator +=] - makes one native append (of
    the C string, or of the string's [c_str()]) and stores in [list_] the
    reference that call returned, under which the chain is [items]
    followed by the new entry; when that reference differs from the old
    one the old one stands for nothing any more.  After any sequence of
    such calls the dereferenced list stands for [items] followed by one
    entry per call, in the order of the calls; the entries are the values
    passed whenever these hold no [NUL]. *)
Theorem list_appends_reflect_all_calls (E : env) (this : curl_list)
    (calls : list append_call) (w : world) (items : list string) :
  chain_of w (list_deref this) = Some items →
  (∀ c, ∃ head w',
     curl_slist_append E (list_ this) (appended_entry c) w = (Ok head, w')
     ∧ list_call E this c w = (Ok {| list_ := head |}, w')
     ∧ chain_of w' head = Some (items ++ [appended_entry c])
     ∧ (head ≠ list_ this → w_slist w' !! list_ this = None))
  ∧ (∃ this' w',
       list_calls E this calls w = (Ok this', w')
       ∧ chain_of w' (list_deref this')
         = Some (items ++ (appended_entry <$> calls)))
  ∧ (Forall (λ c, nul_free (call_value c)) calls →
     appended_entry <$> calls = call_value <$> calls).
Proof.
  intros Hchain. split; [|split].
  - intros c. rewrite list_call_is_append. by apply list_append_run.
  - revert this w items Hchain.
    induction calls as [|c rest IH]; intros this w items Hchain.
    + exists this, w. simpl. by rewrite app_nil_r.
    + destruct (list_append_run E this (appended_entry c) w items Hchain)
        as (head & w1 & _ & Happ & Hnew & _).
      rewrite <-list_call_is_append in Happ.
      destruct (IH {| list_ := head |} w1 (items ++ [appended_entry c]) Hnew)
        as (this' & w' & Hall & Hfinal).
      exists this', w'. split.
      * simpl. by rewrite (bind_run _ _ _ _ _ Happ).
      * rewrite Hfinal. simpl. by rewrite <-app_assoc.
  - intros Hfree. induction Hfree as [|c rest Hc _ IH]; [done|]. simpl.
    f_equal; [by apply appended_entry_nul_free|exact IH].
Qed.

(** One call of each member on a new list, the chain moving each time. *)
Lemma list_appends_reflect_all_calls_witness :
  let calls := [Append_cstr "Accept: text/html"; Append_string "X-Id: 1";
                PlusEq_cstr "A: b"; PlusEq_string "C: d"] in
  (∃ this' w',
     list_calls sample_env list_ctor calls empty_world = (Ok this', w')
     ∧ chain_of w' (list_deref this')
       = Some ["Accept: text/html"; "X-Id: 1"; "A: b"; "C: d"])
  ∧ appended_entry <$> calls = call_value <$> calls.
Proof.
  intros calls.
  destruct (list_appends_reflect_all_calls sample_env list_ctor calls
              empty_world [] eq_refl)
    as (_ & (this' & w' & Hrun & Hchain) & Hfree).
  split; [by exists this', w'|].
  apply Hfree. repeat constructor; by vm_compute.
Defined.

(** ** Claims about receiving into a string *)

Lemma bind_Ok_inv {A B} (m : M A) (f : A → M B) (w w' : world) (b : B) :
  (m ≫= f) w = (Ok b, w') → ∃ a w1, m w = (Ok a, w1) ∧ f a w1 = (Ok b, w').
Proof.
  unfold mbind, M_bind. destruct (m w) as [[a| |] w1]; [eauto|done..].
Qed.

Lemma CHECK_Ok_inv (E : env) (file : string) (line : Z) (text : string)
    (x : M Z) (w w' : world) (u : unit) :
  CHECK E file line text x w = (Ok u, w') → x w = (Ok CURLE_OK, w').
Proof.
  unfold CHECK. intros (code & w1 & Hx & Hrest)%bind_Ok_inv.
  case_decide as Hcode.
  - destruct (error_ctor_code _ _ _ _ _); discriminate.
  - unfold mret, M_ret in Hrest. injection Hrest as _ <-. by rewrite Hx, Hcode.
Qed.

Lemma curl_easy_setopt_Ok_inv (E : env) (h : Z) (o : CURLoption) (v : optval)
    (w w' : world) :
  curl_easy_setopt E h o v w = (Ok CURLE_OK, w') →
  w' = with_easy (<[h := conf_set o v (conf_of w h)]> (w_easy w))
         (log (Call_easy_setopt h o v) w).
Proof.
  unfold curl_easy_setopt. case_decide as Hcode; intros [= Hc <-]; done.
Qed.

Lemma deliver_string_run (E : env) (h buffer : Z) (chunks : list chunk) :
  ∀ (w w' : world) (old : string),
    conf_of w h = {| writefunction := Some WF_string; writedata := buffer |} →
    w_strings w !! buffer = Some old →
    deliver E h chunks w = (Ok true, w') →
    w_trace w' = w_trace w ++ map (write_event buffer) chunks
    ∧ Forall fully_accepted chunks
    ∧ w_strings w' !! buffer = Some (old +:+ str_concat (c_data <$> chunks)).
Proof.
  induction chunks as [|c rest IH]; intros w w' old Hconf Hold Hrun.
  - injection Hrun as <-. simpl. by rewrite app_nil_r, str_app_nil_r.
  - simpl in Hrun. unfold mbind at 1, M_bind at 1, gets in Hrun.
    rewrite Hconf in Hrun. unfold write_callback in Hrun. simpl in Hrun.
    unfold mbind at 1, M_bind at 1, recv_into_writefunc_string_ in Hrun.
    rewrite Hold in Hrun.
    case_decide as Hbound; [|discriminate].
    unfold mbind at 1, M_bind at 1, modify in Hrun.
    case_decide as Hacc; [|discriminate].
    apply IH with (old := old +:+ c_data c) in Hrun as (Htr & Hall & Hstr).
    + split; [|split].
      * rewrite Htr. simpl. by rewrite <-app_assoc.
      * by constructor.
      * rewrite Hstr. simpl. by rewrite str_app_assoc.
    + done.
    + simpl. rewrite lookup_insert_eq, Hacc. unfold strlen.
      by rewrite Nat2Z.id, str_take_all.
Qed.

Lemma curl_easy_perform_string_run (E : env) (h buffer : Z) (w w' : world)
    (old : string) :
  conf_of w h = {| writefunction := Some WF_string; writedata := buffer |} →
  w_strings w !! buffer = Some old →
  curl_easy_perform E h w = (Ok CURLE_OK, w') →
  ∃ chunks,
    w_trace w' = w_trace w ++ Call_easy_perform h :: map (write_event buffer) chunks
    ∧ Forall fully_accepted chunks
    ∧ w_strings w' !! buffer = Some (old +:+ str_concat (c_data <$> chunks)).
Proof.
  intros Hconf Hold. unfold curl_easy_perform.
  intros (accepted & w1 & Hrun & Hret)%bind_Ok_inv.
  injection Hret as Hcode <-.
  destruct accepted; [|discriminate].
  apply deliver_string_run with (buffer := buffer) (old := old) in Hrun
    as (Htr & Hall & Hstr); [|done..].
  eexists. split; [|done]. rewrite Htr. simpl. by rewrite <-app_assoc.
Qed.

Lemma delivered_write_events (buffer : Z) (chunks : list chunk) :
  delivered (map (write_event buffer) chunks) = chunks.
Proof. induction chunks as [|c rest IH]; simpl; [done|]. by rewrite IH. Qed.

Lemma easy_recv_into_string_run (E : env) (this : easy) (buffer : Z)
    (w w' : world) (old : string) :
  w_strings w !! buffer = Some old →
  easy_recv_into_string E this buffer w = (Ok tt, w') →
  ∃ chunks,
    w_trace w' = w_trace w ++
      [Call_easy_setopt (handle_ this) CURLOPT_WRITEDATA (VPtr buffer);
       Call_easy_setopt (handle_ this) CURLOPT_WRITEFUNCTION (VFun WF_string);
       Call_easy_perform (handle_ this)] ++ map (write_event buffer) chunks
    ∧ delivered_since w w' = chunks
    ∧ Forall fully_accepted chunks
    ∧ w_strings w' !! buffer = Some (old +:+ str_concat (c_data <$> chunks)).
Proof.
  intros Hold. unfold easy_recv_into_string.
  intros ([] & w1 & Hptr & Hrest)%bind_Ok_inv.
  apply bind_Ok_inv in Hrest as ([] & w2 & Hfn & Hperform).
  apply CHECK_Ok_inv, curl_easy_setopt_Ok_inv in Hptr.
  apply CHECK_Ok_inv, curl_easy_setopt_Ok_inv in Hfn.
  apply CHECK_Ok_inv in Hperform.
  apply curl_easy_perform_string_run with (buffer := buffer) (old := old)
    in Hperform as (chunks & Htr & Hall & Hstr).
  - exists chunks. subst w2 w1. simpl in *.
    assert (Htrace : w_trace w' = w_trace w ++
      [Call_easy_setopt (handle_ this) CURLOPT_WRITEDATA (VPtr buffer);
       Call_easy_setopt (handle_ this) CURLOPT_WRITEFUNCTION (VFun WF_string);
       Call_easy_perform (handle_ this)] ++ map (write_event buffer) chunks).
    { rewrite Htr. by rewrite <-!app_assoc. }
    split; [done|]. split; [|done].
    unfold delivered_since. rewrite Htrace, drop_app_length.
    apply delivered_write_events.
  - subst w2 w1. unfold conf_of. simpl. by rewrite !lookup_insert_eq.
  - subst w2 w1. done.
Qed.

Lemma recv_into_writefunc_string_ret (ptr : string) (size nmemb buffer : Z)
    (w w' : world) (n : Z) :
  recv_into_writefunc_string_ ptr size nmemb buffer w = (Ok n, w') →
  n = size_t (size * nmemb).
Proof.
  unfold recv_into_writefunc_string_.
  destruct (w_strings w !! buffer); [|discriminate].
  case_decide; [|discriminate]. by intros [= <- _].
Qed.

(** C6, as the source has it: when [recv_into] returns for a string that
    held [old], the native calls it made are the two option settings, the
    transfer and one callback per delivered chunk; every callback returned
    [size*nmemb], the number of bytes it was offered; and the string holds
    [old] followed by the delivered chunks in the order of their arrival.
    [get] starts from an empty string of its own and returns exactly the
    delivered chunks in that order.  The callback never returns anything
    but [size*nmemb]. *)
Theorem easy_recv_into_string_appends_delivered (E : env) (this : easy)
    (w : world) :
  (∀ buffer old w',
     w_strings w !! buffer = Some old →
     easy_recv_into_string E this buffer w = (Ok tt, w') →
     w_trace w' = w_trace w ++
       [Call_easy_setopt (handle_ this) CURLOPT_WRITEDATA (VPtr buffer);
        Call_easy_setopt (handle_ this) CURLOPT_WRITEFUNCTION (VFun WF_string);
        Call_easy_perform (handle_ this)]
       ++ map (write_event buffer) (delivered_since w w')
     ∧ Forall fully_accepted (delivered_since w w')
     ∧ w_strings w' !! buffer
       = Some (old +:+ str_concat (c_data <$> delivered_since w w')))
  ∧ (∀ s w',
       easy_get E this w = (Ok s, w') →
       Forall fully_accepted (delivered_since w w')
       ∧ s = str_concat (c_data <$> delivered_since w w'))
  ∧ (∀ ptr size nmemb buffer w0 w0' n,
       recv_into_writefunc_string_ ptr size nmemb buffer w0 = (Ok n, w0') →
       n = size_t (size * nmemb)).
Proof.
  split; [|split].
  - intros buffer old w' Hold Hrun.
    destruct (easy_recv_into_string_run E this buffer w w' old Hold Hrun)
      as (chunks & Htr & <- & Hall & Hstr).
    done.
  - intros s w'. unfold easy_get.
    set (w0 := bump (with_strings (<[fresh w := ""]> (w_strings w)) w)).
    destruct (easy_recv_into_string E this (fresh w) w0) as [[[]| |] w1] eqn:Hrun;
      [|discriminate..].
    assert (Hempty : w_strings w0 !! fresh w = Some "")
      by (simpl; apply lookup_insert_eq).
    destruct (easy_recv_into_string_run E this (fresh w) w0 w1 "" Hempty Hrun)
      as (chunks & _ & Hdel & Hall & Hstr).
    rewrite Hstr. intros [= <- <-].
    unfold delivered_since in *. simpl in *. rewrite Hdel. done.
  - intros ptr size nmemb buffer w0 w0' n.
    apply recv_into_writefunc_string_ret.
Qed.

(** A transfer into the string holding "x", and [get] on the same handle. *)
Lemma easy_recv_into_string_appends_delivered_witness :
  (∃ w',
     easy_recv_into_string sample_env {| handle_ := 5 |} 100 prefilled_world
     = (Ok tt, w')
     ∧ w_strings w' !! 100
       = Some ("x" +:+ str_concat (c_data <$> delivered_since prefilled_world w')))
  ∧ (∃ w',
       easy_get sample_env {| handle_ := 5 |} sample_world = (Ok "y", w')
       ∧ "y" = str_concat (c_data <$> delivered_since sample_world w')).
Proof.
  split.
  - destruct (easy_recv_into_string_appends_delivered sample_env
                {| handle_ := 5 |} prefilled_world) as (Hrecv & _ & _).
    eexists. split; [reflexivity|].
    eapply Hrecv; reflexivity.
  - destruct (easy_recv_into_string_appends_delivered sample_env
                {| handle_ := 5 |} sample_world) as (_ & Hget & _).
    eexists. split; [reflexivity|].
    eapply Hget; reflexivity.
Defined.

(** C6 as it is worded fails on a string that is not empty: the chunk "y"
    is delivered to a string holding "x", which then holds "xy" and not
    the delivered bytes alone. *)
Lemma easy_recv_into_string_keeps_old_content :
  ∃ w',
    easy_recv_into_string sample_env {| handle_ := 5 |} 100 prefilled_world
    = (Ok tt, w')
    ∧ c_data <$> delivered_since prefilled_world w' = ["y"]
    ∧ w_strings w' !! 100 = Some "xy"
    ∧ w_strings w' !! 100
      ≠ Some (str_concat (c_data <$> delivered_since prefilled_world w')).
Proof.
  eexists. split; [reflexivity|]. split; [reflexivity|].
  split; [reflexivity|]. by vm_compute.
Qed.

(** * Further properties of the wrappers *)

(** ** Construction and the lifetime of a handle *)

(** X1: whatever [curl_easy_init] returns, the default constructor throws
    the located error of line 54 when it is null (no object exists, so no
    handle is released) and otherwise returns an object holding exactly
    that handle; it never returns an object holding null; and an object it
    returns, once destroyed, has had its handle released exactly once. *)
Theorem easy_ctor_owns_init_result (E : env) (w w' : world) (h : Z) :
  curl_easy_init E w = (Ok h, w') →
  (h = nullptr → fits_int (fmt_loc (FILE_cpp E) 54 acquire_msg) →
   ∃ e, easy_ctor E w = (Throw e, w')
        ∧ error_what e = what_loc (FILE_cpp E) 54 acquire_msg
        ∧ w_trace w' = w_trace w ++ [Call_easy_init])
  ∧ (h ≠ nullptr →
     easy_ctor E w = (Ok {| handle_ := h |}, w')
     ∧ w_trace ((x ← easy_ctor E; easy_dtor x) w).2
       = w_trace w ++ [Call_easy_init; Call_easy_cleanup h]
     ∧ w_easy ((x ← easy_ctor E; easy_dtor x) w).2 !! h = None)
  ∧ (∀ x w'', easy_ctor E w = (Ok x, w'') → handle_ x ≠ nullptr).
Proof.
  intros Hinit.
  assert (Hctor : easy_ctor E w
            = (if decide (h = nullptr)
               then throw_new (ERROR E acquire_msg 54)
               else mret {| handle_ := h |}) w').
  { unfold easy_ctor. by rewrite (bind_run _ _ _ _ _ Hinit). }
  rewrite Hctor. unfold ERROR. split; [|split].
  - intros -> Hfit. rewrite decide_True by done.
    rewrite error_ctor_loc_what by done. eexists. split; [done|].
    split; [done|]. revert Hinit. unfold curl_easy_init.
    destruct (easy_init_ok E (w_trace w)); by intros [= <-].
  - intros Hne. rewrite decide_False in * by done. split; [done|].
    rewrite (bind_run _ _ _ _ _ Hctor). simpl.
    revert Hinit. unfold curl_easy_init.
    destruct (easy_init_ok E (w_trace w)); intros [= <- <-]; simpl.
    + split; [by rewrite <-app_assoc|]. apply lookup_delete_eq.
    + done.
  - intros x w''. case_decide as Hh.
    + destruct (error_ctor_loc _ _ _); discriminate.
    + by intros [= <- _].
Qed.

(** Both cases on a run: a library without handles, and one handing out
    address 1. *)
Lemma easy_ctor_owns_init_result_witness :
  (∃ e w', easy_ctor failing_env empty_world = (Throw e, w')
           ∧ error_what e
             = what_loc "curl++.cpp" 54 "Failed to aquire CURL easy handle")
  ∧ (∃ w', easy_ctor sample_env empty_world = (Ok {| handle_ := 1 |}, w')).
Proof.
  split.
  - destruct (easy_ctor_owns_init_result failing_env empty_world _ 0 eq_refl)
      as (Hnull & _ & _).
    destruct Hnull as (e & H1 & H2 & _); [reflexivity | by vm_compute |].
    by eexists _, _.
  - destruct (easy_ctor_owns_init_result sample_env empty_world _ 1 eq_refl)
      as (_ & Hok & _).
    destruct Hok as (H & _); [discriminate|]. by eexists.
Defined.

(** X2: [perform] and [pause] end in the world the native call left; each
    returns when that call answered [CURLE_OK], and otherwise throws the
    error whose message gives its own file and line (129 and 124), the text
    of the native call and the library's description of the code. *)
Theorem easy_perform_pause_ok_or_throw (E : env) (this : easy) (bitmask : Z)
    (w : world) :
  (∀ cp wp,
     curl_easy_perform E (handle_ this) w = (Ok cp, wp) →
     (cp = CURLE_OK → easy_perform E this w = (Ok tt, wp))
     ∧ (cp ≠ CURLE_OK →
        fits_int (fmt_code (FILE_cpp E) 129 "curl_easy_perform(handle_)"
                    (easy_strerror E cp)) →
        ∃ e, easy_perform E this w = (Throw e, wp)
             ∧ error_what e
               = what_code (FILE_cpp E) 129 "curl_easy_perform(handle_)"
                   (easy_strerror E cp)))
  ∧ (∀ cq wq,
       curl_easy_pause E (handle_ this) bitmask w = (Ok cq, wq) →
       (cq = CURLE_OK → easy_pause E this bitmask w = (Ok tt, wq))
       ∧ (cq ≠ CURLE_OK →
          fits_int (fmt_code (FILE_cpp E) 124
                      "curl_easy_pause(handle_, bitmask)"
                      (easy_strerror E cq)) →
          ∃ e, easy_pause E this bitmask w = (Throw e, wq)
               ∧ error_what e
                 = what_code (FILE_cpp E) 124
                     "curl_easy_pause(handle_, bitmask)"
                     (easy_strerror E cq))).
Proof.
  unfold easy_perform, easy_pause. split.
  - intros cp wp Hp. split.
    + intros ->. by apply CHECK_ok.
    + intros Hne Hfit. eexists. split; [by apply CHECK_fail|done].
  - intros cq wq Hq. split.
    + intros ->. by apply CHECK_ok.
    + intros Hne Hfit. eexists. split; [by apply CHECK_fail|done].
Qed.

(** A transfer that times out after delivering its data, and an accepted
    pause. *)
Lemma easy_perform_pause_ok_or_throw_witness :
  (∃ e w', easy_perform timeout_env {| handle_ := 5 |} sample_world
           = (Throw e, w')
           ∧ error_what e
             = what_code "curl++.cpp" 129 "curl_easy_perform(handle_)"
                 "Timeout was reached")
  ∧ (∃ w', easy_pause timeout_env {| handle_ := 5 |} 5 sample_world
           = (Ok tt, w')).
Proof.
  destruct (easy_perform_pause_ok_or_throw timeout_env {| handle_ := 5 |} 5
              sample_world) as [Hperform Hpause].
  split.
  - destruct (Hperform 28 _ eq_refl) as [_ Hfail].
    destruct Hfail as (e & H1 & H2); [discriminate | by vm_compute |].
    by eexists _, _.
  - destruct (Hpause 0 _ eq_refl) as [Hok _].
    eexists. by apply Hok.
Defined.

(** ** The error message in general *)

(** X3: when the text fits an [int], the message of a located error is
    "File: <file> - Line: <line>", a newline and the message, and that of a
    coded error continues with a newline, ten dashes, a newline and the
    library's description of the code; both are the format's expansion
    less its final newline, and each names the file, the line and the
    message it was built from.  The plain constructor keeps its message
    unchanged. *)
Theorem error_what_layout (E : env) (msg file : string) (line code : Z) :
  fits_int (fmt_loc file line msg) →
  fits_int (fmt_code file line msg (easy_strerror E code)) →
  error_what <$> error_ctor_msg msg = Some msg
  ∧ error_what <$> error_ctor_loc msg file line
    = Some (what_loc file line msg)
  ∧ error_what <$> error_ctor_code E msg code file line
    = Some (what_code file line msg (easy_strerror E code))
  ∧ what_loc file line msg +:+ LF = fmt_loc file line msg
  ∧ what_code file line msg (easy_strerror E code) +:+ LF
    = fmt_code file line msg (easy_strerror E code)
  ∧ what_code file line msg (easy_strerror E code)
    = what_loc file line msg +:+ LF +:+ "----------" +:+ LF
      +:+ easy_strerror E code
  ∧ contains (what_loc file line msg) file
  ∧ contains (what_loc file line msg) (pretty line)
  ∧ contains (what_loc file line msg) msg.
Proof.
  intros Hloc Hcode.
  rewrite error_ctor_loc_what, error_ctor_code_what by done.
  rewrite fmt_loc_what, fmt_code_what.
  repeat split; try done; try apply what_loc_contains.
  - unfold what_code, what_loc. by rewrite !str_app_assoc.
  - exists ("File: " +:+ file +:+ " - Line: " +:+ pretty line +:+ LF), "".
    unfold what_loc. by rewrite !str_app_assoc, str_app_nil_r.
Qed.

Lemma error_what_layout_witness :
  error_what <$> error_ctor_code failing_env "call()" 43 "a.cpp" 12
  = Some (what_code "a.cpp" 12 "call()"
            "A libcurl function was given a bad argument")
  ∧ contains (what_loc "a.cpp" 12 "call()") "12".
Proof.
  destruct (error_what_layout failing_env "call()" "a.cpp" 12 43)
    as (_ & _ & Hcode & _ & _ & _ & _ & Hline & _);
    [by vm_compute | by vm_compute |].
  split; [exact Hcode | exact Hline].
Defined.

(** ** Receiving: the order of the steps and the sink *)

Lemma CHECK_world (E : env) (file : string) (line : Z) (text : string)
    (x : M Z) (w : world) :
  (CHECK E file line text x w).2 = (x w).2.
Proof.
  unfold CHECK, mbind, M_bind. destruct (x w) as [[code| |] w1]; [|done..].
  case_decide; [|done]. by destruct (error_ctor_code _ _ _ _ _).
Qed.

Lemma curl_easy_setopt_refused (E : env) (h : Z) (o : CURLoption) (v : optval)
    (w : world) :
  setopt_code E (w_trace w) h o v ≠ CURLE_OK →
  curl_easy_setopt E h o v w
  = (Ok (setopt_code E (w_trace w) h o v), log (Call_easy_setopt h o v) w).
Proof. intros Hne. unfold curl_easy_setopt. by rewrite decide_False. Qed.

Lemma curl_easy_setopt_accepted (E : env) (h : Z) (o : CURLoption) (v : optval)
    (w : world) :
  setopt_code E (w_trace w) h o v = CURLE_OK →
  curl_easy_setopt E h o v w = (Ok CURLE_OK, after_setopt h o v w).
Proof.
  intros Hok. unfold curl_easy_setopt. rewrite decide_True by done.
  by rewrite Hok.
Qed.

Lemma recv_into_steps (E : env) (this : easy) (data : Z) (f : writefunc)
    (w : world) :
  let h := handle_ this in
  let text := "curl_easy_setopt(handle_, option, value)" in
  let c1 := setopt_code E (w_trace w) h CURLOPT_WRITEDATA (VPtr data) in
  let w1 := after_setopt h CURLOPT_WRITEDATA (VPtr data) w in
  let c2 := setopt_code E (w_trace w1) h CURLOPT_WRITEFUNCTION (VFun f) in
  let w2 := after_setopt h CURLOPT_WRITEFUNCTION (VFun f) w1 in
  let run := easy_set_ptr E this CURLOPT_WRITEDATA data;;
             easy_set_fn E this CURLOPT_WRITEFUNCTION f;;
             easy_perform E this in
  (c1 ≠ CURLE_OK →
   fits_int (fmt_code (FILE_h E) 198 text (easy_strerror E c1)) →
   run w = (Throw {| buf_ := what_code (FILE_h E) 198 text
                               (easy_strerror E c1) |},
            log (Call_easy_setopt h CURLOPT_WRITEDATA (VPtr data)) w))
  ∧ (c1 = CURLE_OK → c2 ≠ CURLE_OK →
     fits_int (fmt_code (FILE_h E) 203 text (easy_strerror E c2)) →
     run w = (Throw {| buf_ := what_code (FILE_h E) 203 text
                                 (easy_strerror E c2) |},
              log (Call_easy_setopt h CURLOPT_WRITEFUNCTION (VFun f)) w1))
  ∧ (c1 = CURLE_OK → c2 = CURLE_OK →
     run w = easy_perform E this w2
     ∧ conf_of w2 h = {| writefunction := Some f; writedata := data |}).
Proof.
  intros h text c1 w1 c2 w2 run. subst run text h.
  unfold easy_set_ptr, easy_set_fn. split; [|split].
  - intros Hne Hfit.
    pose proof (CHECK_fail E (FILE_h E) 198 _ _ w _ c1
                  (curl_easy_setopt_refused E _ _ _ w Hne) Hne Hfit) as H.
    unfold mbind at 1, M_bind at 1. by rewrite H.
  - intros Hok Hne Hfit.
    pose proof (CHECK_ok E (FILE_h E) 198
                  "curl_easy_setopt(handle_, option, value)" _ w w1
                  (curl_easy_setopt_accepted E _ _ _ w Hok)) as H1.
    rewrite (bind_run _ _ _ _ _ H1).
    pose proof (CHECK_fail E (FILE_h E) 203 _ _ w1 _ c2
                  (curl_easy_setopt_refused E _ _ _ w1 Hne) Hne Hfit) as H2.
    unfold mbind at 1, M_bind at 1. by rewrite H2.
  - intros Hok1 Hok2.
    pose proof (CHECK_ok E (FILE_h E) 198
                  "curl_easy_setopt(handle_, option, value)" _ w w1
                  (curl_easy_setopt_accepted E _ _ _ w Hok1)) as H1.
    rewrite (bind_run _ _ _ _ _ H1).
    pose proof (CHECK_ok E (FILE_h E) 203
                  "curl_easy_setopt(handle_, option, value)" _ w1 w2
                  (curl_easy_setopt_accepted E _ _ _ w1 Hok2)) as H2.
    rewrite (bind_run _ _ _ _ _ H2). split; [done|].
    unfold conf_of, w2, w1, after_setopt. simpl.
    rewrite lookup_insert_eq. simpl. unfold conf_of. simpl.
    by rewrite lookup_insert_eq.
Qed.

(** X4: each of the three overloads of [recv_into] sets the sink, then the
    callback, then performs, and stops at the first step that is refused.
    When the sink is refused it throws the error of curl++.h line 198
    having made that one native call only; when the callback is refused
    it throws the error of line 203, the sink staying installed; in
    neither case is a transfer started.  When both are accepted the call
    ends as [perform] does on the handle that now holds this sink and this
    callback. *)
Theorem recv_into_stops_at_refused_step (E : env) (this : easy) (data : Z)
    (f : writefunc) (run : M unit) (w : world) :
  recv_into_overload E this data f run →
  let h := handle_ this in
  let text := "curl_easy_setopt(handle_, option, value)" in
  let c1 := setopt_code E (w_trace w) h CURLOPT_WRITEDATA (VPtr data) in
  let w1 := after_setopt h CURLOPT_WRITEDATA (VPtr data) w in
  let c2 := setopt_code E (w_trace w1) h CURLOPT_WRITEFUNCTION (VFun f) in
  let w2 := after_setopt h CURLOPT_WRITEFUNCTION (VFun f) w1 in
  (c1 ≠ CURLE_OK →
   fits_int (fmt_code (FILE_h E) 198 text (easy_strerror E c1)) →
   ∃ e, run w = (Throw e,
                 log (Call_easy_setopt h CURLOPT_WRITEDATA (VPtr data)) w)
        ∧ error_what e = what_code (FILE_h E) 198 text (easy_strerror E c1))
  ∧ (c1 = CURLE_OK → c2 ≠ CURLE_OK →
     fits_int (fmt_code (FILE_h E) 203 text (easy_strerror E c2)) →
     ∃ e, run w = (Throw e,
                   log (Call_easy_setopt h CURLOPT_WRITEFUNCTION (VFun f)) w1)
          ∧ error_what e = what_code (FILE_h E) 203 text (easy_strerror E c2)
          ∧ writedata (conf_of w1 h) = data)
  ∧ (c1 = CURLE_OK → c2 = CURLE_OK →
     run w = easy_perform E this w2
     ∧ conf_of w2 h = {| writefunction := Some f; writedata := data |}).
Proof.
  intros Hrun h text c1 w1 c2 w2.
  destruct (recv_into_steps E this data f w) as (Ha & Hb & Hc).
  assert (Heq : run = (easy_set_ptr E this CURLOPT_WRITEDATA data;;
                       easy_set_fn E this CURLOPT_WRITEFUNCTION f;;
                       easy_perform E this)).
  { destruct Hrun as [[-> ->]|(a & -> & [->| ->])]; reflexivity. }
  rewrite Heq. split; [|split].
  - intros Hne Hfit. eexists. split; [by apply Ha|done].
  - intros Hok Hne Hfit. eexists. split; [by apply Hb|]. split; [done|].
    unfold conf_of, w1, after_setopt. simpl. by rewrite lookup_insert_eq.
  - apply Hc.
Qed.

(** A library that refuses every option: the file overload stops at the
    sink. *)
Lemma recv_into_stops_at_refused_step_witness :
  ∃ e, easy_recv_into_file failing_env 4096 {| handle_ := 5 |} 200 sample_world
       = (Throw e,
          log (Call_easy_setopt 5 CURLOPT_WRITEDATA (VPtr 200)) sample_world)
       ∧ contains (error_what e) "198".
Proof.
  destruct (recv_into_stops_at_refused_step failing_env {| handle_ := 5 |} 200
              (WF_other 4096)
              (easy_recv_into_file failing_env 4096 {| handle_ := 5 |} 200)
              sample_world) as (Hsink & _ & _).
  { right. exists 4096. split; [reflexivity|]. by right. }
  destruct Hsink as (e & Hrun & Hwhat); [discriminate | by vm_compute |].
  exists e. split; [exact Hrun|]. rewrite Hwhat. apply what_code_contains.
Defined.

Lemma seq_stop {A B} (m : M A) (f : A → M B) (w w' : world) (r : result B) :
  (m ≫= f) w = (r, w') →
  (∃ a w1, m w = (Ok a, w1) ∧ f a w1 = (r, w'))
  ∨ ((m w).2 = w' ∧ ∀ b, r ≠ Ok b).
Proof.
  unfold mbind, M_bind. destruct (m w) as [[a| |] w1]; [by eauto|..];
    intros [= <- <-]; by right.
Qed.

Lemma deliver_string_any (E : env) (h buffer : Z) (chunks : list chunk) :
  ∀ (w w' : world) (r : result bool) (old : string),
    conf_of w h = {| writefunction := Some WF_string; writedata := buffer |} →
    w_strings w !! buffer = Some old →
    deliver E h chunks w = (r, w') →
    ∃ cs,
      w_trace w' = w_trace w ++ map (write_event buffer) cs
      ∧ w_strings w'
        = <[buffer := old +:+ str_concat (taken <$> cs)]> (w_strings w)
      ∧ w_easy w' = w_easy w
      ∧ w_next w' = w_next w.
Proof.
  induction chunks as [|c rest IH]; intros w w' r old Hconf Hold Hrun.
  - injection Hrun as <- <-. exists []. simpl.
    rewrite app_nil_r, str_app_nil_r. by rewrite insert_id.
  - simpl in Hrun. unfold mbind at 1, M_bind at 1, gets in Hrun.
    rewrite Hconf in Hrun. unfold write_callback in Hrun. simpl in Hrun.
    unfold mbind at 1, M_bind at 1, recv_into_writefunc_string_ in Hrun.
    rewrite Hold in Hrun. fold (taken c) in Hrun.
    case_decide as Hbound.
    + unfold mbind at 1, M_bind at 1, modify in Hrun.
      case_decide as Hacc.
      * apply IH with (old := old +:+ taken c) in Hrun
          as (cs & Htr & Hstr & Heasy & Hnext).
        -- exists (c :: cs). simpl in *. split; [|split; [|done]].
           ++ rewrite Htr. by rewrite <-app_assoc.
           ++ rewrite Hstr, insert_insert_eq. by rewrite str_app_assoc.
        -- done.
        -- simpl. by rewrite lookup_insert_eq.
      * injection Hrun as <- <-. exists [c]. simpl.
        by rewrite str_app_nil_r.
    + injection Hrun as <- <-. exists []. simpl.
      rewrite app_nil_r, str_app_nil_r. by rewrite insert_id.
Qed.

Lemma curl_easy_perform_string_any (E : env) (h buffer : Z) (w w' : world)
    (r : result Z) (old : string) :
  conf_of w h = {| writefunction := Some WF_string; writedata := buffer |} →
  w_strings w !! buffer = Some old →
  curl_easy_perform E h w = (r, w') →
  ∃ cs,
    w_trace w' = w_trace w ++ Call_easy_perform h :: map (write_event buffer) cs
    ∧ w_strings w'
      = <[buffer := old +:+ str_concat (taken <$> cs)]> (w_strings w)
    ∧ w_easy w' = w_easy w
    ∧ w_next w' = w_next w.
Proof.
  intros Hconf Hold. unfold curl_easy_perform, mbind, M_bind.
  destruct (deliver E h _ (log (Call_easy_perform h) w))
    as [rd wd] eqn:Hrun.
  apply deliver_string_any with (buffer := buffer) (old := old) in Hrun
    as (cs & Htr & Hstr & Heasy & Hnext); [|done..].
  intros Hres. assert (w' = wd) as -> by (by destruct rd; injection Hres).
  exists cs. simpl in *. split; [|done]. rewrite Htr. by rewrite <-app_assoc.
Qed.

(** When a step of [recv_into] is refused nothing was delivered and no
    string changed. *)
Lemma nothing_delivered (w w' : world) (buffer : Z) (old : string)
    (calls : list call) :
  w_strings w !! buffer = Some old →
  w_trace w' = w_trace w ++ calls → delivered calls = [] →
  w_strings w' = w_strings w →
  w_strings w'
  = <[buffer := old +:+ str_concat (taken <$> delivered_since w w')]>
      (w_strings w).
Proof.
  intros Hold Htr Hnone Hstr. unfold delivered_since.
  rewrite Htr, drop_app_length, Hnone, Hstr. simpl.
  rewrite str_app_nil_r. by rewrite insert_id.
Qed.

Lemma easy_recv_into_string_any (E : env) (this : easy) (buffer : Z)
    (w w' : world) (r : result unit) (old : string) :
  w_strings w !! buffer = Some old →
  easy_recv_into_string E this buffer w = (r, w') →
  w_strings w'
  = <[buffer := old +:+ str_concat (taken <$> delivered_since w w')]>
      (w_strings w)
  ∧ w_next w' = w_next w
  ∧ (r = Ok tt →
     conf_of w' (handle_ this)
     = {| writefunction := Some WF_string; writedata := buffer |}).
Proof.
  intros Hold. unfold easy_recv_into_string.
  destruct (curl_easy_setopt_run E (handle_ this) CURLOPT_WRITEDATA
              (VPtr buffer) w) as (wa & Hsa & Htra & Hna & Hstra).
  intros [([] & w1 & H1 & Hrest)|[Hw Hr]]%seq_stop; cycle 1.
  { unfold easy_set_ptr in Hw. rewrite CHECK_world, Hsa in Hw.
    simpl in Hw. subst wa. split; [|split; [done|]].
    - by eapply nothing_delivered.
    - intros ->. by destruct (Hr tt). }
  apply CHECK_Ok_inv in H1. pose proof H1 as H1'.
  apply curl_easy_setopt_Ok_inv in H1'. fold (after_setopt (handle_ this)
    CURLOPT_WRITEDATA (VPtr buffer) w) in H1'.
  rewrite H1 in Hsa. injection Hsa as _ <-.
  destruct (curl_easy_setopt_run E (handle_ this) CURLOPT_WRITEFUNCTION
              (VFun WF_string) w1) as (wb & Hsb & Htrb & Hnb & Hstrb).
  assert (Htr2 : w_trace wb = w_trace w ++
            [Call_easy_setopt (handle_ this) CURLOPT_WRITEDATA (VPtr buffer);
             Call_easy_setopt (handle_ this) CURLOPT_WRITEFUNCTION
               (VFun WF_string)]).
  { rewrite Htrb, Htra. by rewrite <-app_assoc. }
  apply seq_stop in Hrest as [([] & w2 & H2 & Hperf)|[Hw Hr]]; cycle 1.
  { unfold easy_set_fn in Hw. rewrite CHECK_world, Hsb in Hw.
    simpl in Hw. subst wb. split; [|split; [congruence|]].
    - eapply nothing_delivered; [done|exact Htr2|done|congruence].
    - intros ->. by destruct (Hr tt). }
  apply CHECK_Ok_inv in H2. pose proof H2 as H2'.
  apply curl_easy_setopt_Ok_inv in H2'.
  rewrite H2 in Hsb. injection Hsb as _ <-.
  pose proof (CHECK_world E (FILE_cpp E) 129 "curl_easy_perform(handle_)"
                (curl_easy_perform E (handle_ this)) w2) as Hw3.
  unfold easy_perform in Hperf. rewrite Hperf in Hw3. simpl in Hw3.
  destruct (curl_easy_perform E (handle_ this) w2) as [r3 w3] eqn:Hp.
  simpl in Hw3. subst w3.
  assert (Hconf2 : conf_of w2 (handle_ this)
            = {| writefunction := Some WF_string; writedata := buffer |}).
  { rewrite H2', H1'. unfold conf_of, after_setopt. simpl.
    rewrite lookup_insert_eq. simpl. unfold conf_of. simpl.
    by rewrite lookup_insert_eq. }
  assert (Hold2 : w_strings w2 !! buffer = Some old)
    by (by rewrite Hstrb, Hstra).
  destruct (curl_easy_perform_string_any E (handle_ this) buffer w2 w' r3 old
              Hconf2 Hold2 Hp) as (cs & Htr & Hstr & Heasy & Hnext).
  split; [|split].
  - unfold delivered_since.
    rewrite Htr, Htr2, <-app_assoc, drop_app_length. simpl.
    rewrite delivered_write_events, Hstr, Hstrb, Hstra. done.
  - by rewrite Hnext, Hnb, Hna.
  - intros _. unfold conf_of in *. by rewrite Heasy.
Qed.

(** X5: however [recv_into] on a string ends - it returns, or it throws at
    any of its three steps - the string holds what it held before, followed
    by the bytes the callback took from the chunks delivered during the
    call, in order; nothing is removed from it, what a failed transfer
    delivered stays in it, and no other string changes. *)
Theorem easy_recv_into_string_only_appends (E : env) (this : easy)
    (buffer : Z) (w w' : world) (r : result unit) (old : string) :
  w_strings w !! buffer = Some old →
  easy_recv_into_string E this buffer w = (r, w') →
  w_strings w'
  = <[buffer := old +:+ str_concat (taken <$> delivered_since w w')]>
      (w_strings w).
Proof.
  intros Hold Hrun.
  by destruct (easy_recv_into_string_any E this buffer w w' r old Hold Hrun).
Qed.

(** A transfer that delivers "ab" and then times out: the call throws and
    the string that held "x" holds "xab". *)
Lemma easy_recv_into_string_only_appends_witness :
  ∃ e w',
    easy_recv_into_string timeout_env {| handle_ := 5 |} 100 prefilled_world
    = (Throw e, w')
    ∧ w_strings w'
      = <[100 := "x" +:+
                 str_concat (taken <$> delivered_since prefilled_world w')]>
          (w_strings prefilled_world)
    ∧ w_strings w' !! 100 = Some "xab".
Proof.
  destruct (easy_recv_into_string timeout_env {| handle_ := 5 |} 100
              prefilled_world) as [r w'] eqn:Hrun.
  pose proof (easy_recv_into_string_only_appends timeout_env
                {| handle_ := 5 |} 100 prefilled_world w' r "x" eq_refl Hrun)
    as Hstr.
  vm_compute in Hrun. injection Hrun as <- <-.
  eexists _, _. split; [reflexivity|]. split; [exact Hstr|reflexivity].
Defined.






(** X7: [get] changes no string that existed before the call.  When it
    throws, its own buffer is gone, and the bytes the failed transfer
    delivered with it; when it returns, the returned string is the one new
    string, at a new address. *)
Theorem easy_get_keeps_strings (E : env) (this : easy) (w w' : world)
    (r : result string) :
  easy_get E this w = (r, w') →
  (∀ e, r = Throw e → w_strings w' = delete (fresh w) (w_strings w))
  ∧ (∀ s, r = Ok s → w_strings w' = <[fresh w := s]> (w_strings w))
  ∧ (r ≠ Undefined → w_next w' = Pos.succ (w_next w)).
Proof.
  unfold easy_get.
  set (w0 := bump (with_strings (<[fresh w := ""]> (w_strings w)) w)).
  destruct (easy_recv_into_string E this (fresh w) w0) as [r1 w1] eqn:Hrun.
  assert (Hempty : w_strings w0 !! fresh w = Some "")
    by (simpl; apply lookup_insert_eq).
  destruct (easy_recv_into_string_any E this (fresh w) w0 w1 _ "" Hempty Hrun)
    as (Hstr & Hnext & _).
  simpl in Hstr. rewrite insert_insert_eq in Hstr.
  destruct r1 as [[]| |]; intros [= <- <-].
  - split; [|split].
    + intros e. by destruct (w_strings w1 !! fresh w).
    + intros s Hs. rewrite Hstr. rewrite Hstr, lookup_insert_eq in Hs.
      by injection Hs as <-.
    + done.
  - split; [|split]; [|done|done].
    intros e0 _. simpl. rewrite Hstr. by rewrite delete_insert_eq.
  - done.
Qed.

(** A transfer that times out and one that succeeds. *)
Lemma easy_get_keeps_strings_witness :
  (∃ e w',
     easy_get timeout_env {| handle_ := 5 |} sample_world = (Throw e, w')
     ∧ w_strings w' = delete (fresh sample_world) (w_strings sample_world))
  ∧ (∃ w',
       easy_get sample_env {| handle_ := 5 |} sample_world = (Ok "y", w')
       ∧ w_strings w' = <[fresh sample_world := "y"]> (w_strings sample_world)).
Proof.
  split.
  - destruct (easy_get timeout_env {| handle_ := 5 |} sample_world)
      as [r w'] eqn:Hrun.
    destruct (easy_get_keeps_strings timeout_env {| handle_ := 5 |}
                sample_world w' r Hrun) as (Hthrow & _ & _).
    vm_compute in Hrun. injection Hrun as <- <-.
    eexists _, _. split; [reflexivity|]. by eapply Hthrow.
  - destruct (easy_get sample_env {| handle_ := 5 |} sample_world)
      as [r w'] eqn:Hrun.
    destruct (easy_get_keeps_strings sample_env {| handle_ := 5 |}
                sample_world w' r Hrun) as (_ & Hok & _).
    vm_compute in Hrun. injection Hrun as <- <-.
    eexists. split; [reflexivity|]. by apply Hok.
Defined.

(** ** Swapping, ordering and duplicating handles *)

Lemma free_all_count_app (sl : Z) (tr1 tr2 : list call) :
  free_all_count sl (tr1 ++ tr2)
  = (free_all_count sl tr1 + free_all_count sl tr2)%nat.
Proof.
  induction tr1 as [|c tr1 IH]; [done|].
  destruct c; simpl; rewrite IH; lia.
Qed.

(** X8: [swap] (the member and the free function) exchanges the handles
    of two objects and loses none: swapping again restores both objects,
    and destroying the two objects after a swap releases every handle as
    often as destroying them before it.  The same holds of the two swaps
    of [list]. *)
Theorem swap_exchanges_owners (a b : easy) (la lb : curl_list) (h : Z)
    (w : world) :
  let a' := (easy_swap a b).1 in
  let b' := (easy_swap a b).2 in
  let la' := (list_swap la lb).1 in
  let lb' := (list_swap la lb).2 in
  handle_ a' = handle_ b ∧ handle_ b' = handle_ a
  ∧ easy_swap a' b' = (a, b)
  ∧ swap_easy a b = easy_swap a b
  ∧ cleanup_count h (w_trace ((easy_dtor a';; easy_dtor b') w).2)
    = cleanup_count h (w_trace ((easy_dtor a;; easy_dtor b) w).2)
  ∧ list_ la' = list_ lb ∧ list_ lb' = list_ la
  ∧ list_swap la' lb' = (la, lb)
  ∧ swap_list la lb = list_swap la lb
  ∧ free_all_count h (w_trace ((list_dtor la';; list_dtor lb') w).2)
    = free_all_count h (w_trace ((list_dtor la;; list_dtor lb) w).2).
Proof.
  destruct a as [ha], b as [hb], la as [sa], lb as [sb]. simpl.
  repeat split; try done.
  - rewrite <-!app_assoc, !cleanup_count_app. simpl.
    repeat case_decide; lia.
  - rewrite <-!app_assoc, !free_all_count_app. simpl.
    repeat case_decide; lia.
Qed.

(** X9: the six operators are one total order on objects: [!=] negates
    [==], [>] is [<] with the operands exchanged, [<=] and [>=] are the
    negations of [>] and [<]; [<] is irreflexive and transitive, exactly
    one of [<], [==], [>] holds of two objects, and two objects that are
    [<=] each other are [==]. *)
Theorem easy_operators_total_order (a b c : easy) :
  easy_ne a b = negb (easy_eq a b)
  ∧ easy_gt a b = easy_lt b a
  ∧ easy_le a b = negb (easy_gt a b)
  ∧ easy_ge a b = negb (easy_lt a b)
  ∧ easy_eq a b = easy_eq b a
  ∧ easy_lt a a = false
  ∧ (easy_lt a b = true → easy_lt b c = true → easy_lt a c = true)
  ∧ (easy_le a b = true → easy_le b a = true → easy_eq a b = true)
  ∧ ((easy_lt a b = true ∧ easy_eq a b = false ∧ easy_gt a b = false)
     ∨ (easy_lt a b = false ∧ easy_eq a b = true ∧ easy_gt a b = false)
     ∨ (easy_lt a b = false ∧ easy_eq a b = false ∧ easy_gt a b = true)).
Proof.
  unfold easy_eq, easy_ne, easy_lt, easy_gt, easy_le, easy_ge.
  destruct a as [x], b as [y], c as [z]. simpl.
  repeat split; repeat case_bool_decide; simpl; try done; lia.
Qed.

Lemma easy_operators_total_order_witness :
  easy_lt {| handle_ := 1 |} {| handle_ := 3 |} = true
  ∧ easy_eq {| handle_ := 2 |} {| handle_ := 2 |} = true.
Proof.
  destruct (easy_operators_total_order {| handle_ := 1 |} {| handle_ := 2 |}
              {| handle_ := 3 |}) as (_ & _ & _ & _ & _ & _ & Htrans & _).
  destruct (easy_operators_total_order {| handle_ := 2 |} {| handle_ := 2 |}
              {| handle_ := 2 |}) as (_ & _ & _ & _ & _ & _ & _ & Hanti & _).
  split; [apply Htrans | apply Hanti]; reflexivity.
Defined.

(** X10: [duplicate] gives a second owner of a second handle: when the
    original holds a handle handed out earlier, the clone's handle differs
    from it, and destroying both objects releases each of the two handles
    exactly once. *)
Theorem easy_duplicate_owns_separately (E : env) (this d : easy)
    (w w' : world) :
  easy_duplicate E this w = (Ok d, w') →
  handle_ this < fresh w →
  handle_ d ≠ handle_ this
  ∧ cleanup_count (handle_ this)
      (w_trace ((easy_dtor d;; easy_dtor this) w').2)
    = (cleanup_count (handle_ this) (w_trace w') + 1)%nat
  ∧ cleanup_count (handle_ d)
      (w_trace ((easy_dtor d;; easy_dtor this) w').2)
    = (cleanup_count (handle_ d) (w_trace w') + 1)%nat.
Proof.
  intros Hdup Hlt.
  apply easy_duplicate_fresh in Hdup as [Hd _].
  assert (Hne : handle_ d ≠ handle_ this) by lia.
  split; [done|]. simpl.
  rewrite <-!app_assoc, !cleanup_count_app. simpl.
  repeat case_decide; try congruence; lia.
Qed.

Lemma easy_duplicate_owns_separately_witness :
  ∃ d w',
    easy_duplicate sample_env {| handle_ := 5 |} sample_world = (Ok d, w')
    ∧ handle_ d ≠ 5.
Proof.
  eexists _, _. split; [reflexivity|].
  eapply (easy_duplicate_owns_separately sample_env {| handle_ := 5 |});
    [reflexivity|reflexivity].
Defined.

(** ** The global set-up *)

(** Constructing [init] never throws, whatever code
    [curl_global_init] answers: the code is dropped.  A scope that
    constructs and destroys an [init] makes the two native calls, in that
    order, and changes nothing else. *)
Theorem init_drops_setup_code (E : env) (flags : Z) (w : world) :
  init_ctor E flags w = (Ok tt, log (Call_global_init flags) w)
  ∧ (init_ctor E flags;; init_dtor) w
    = (Ok tt, log Call_global_cleanup (log (Call_global_init flags) w))
  ∧ w_trace ((init_ctor E flags;; init_dtor) w).2
    = w_trace w ++ [Call_global_init flags; Call_global_cleanup].
Proof.
  repeat split. simpl. by rewrite <-app_assoc.
Qed.

(** ** The string list: other chains, release, moving *)

Lemma curl_slist_append_rest (E : env) (sl : Z) (v : string) (w : world)
    (items : list string) :
  slist_allocated w → chain_of w sl = Some items →
  ∃ head w1,
    curl_slist_append E sl v w = (Ok head, w1)
    ∧ delete head (w_slist w1) = delete sl (w_slist w)
    ∧ slist_allocated w1
    ∧ chain_of w1 head = Some (items ++ [v]).
Proof.
  intros Halloc Hchain.
  destruct (curl_slist_append_run E sl v w items Hchain)
    as (head & w1 & Hrun & Hnull & Hnew & _ & _).
  exists head, w1. split; [done|]. split; [|split; [|done]].
  - revert Hrun. unfold curl_slist_append. rewrite Hchain.
    intros [= <- <-]. simpl. rewrite delete_insert_eq.
    assert (Hfresh : delete (fresh w) (delete sl (w_slist w))
                     = delete sl (w_slist w)).
    { apply delete_id, lookup_delete_None. right.
      destruct (w_slist w !! fresh w) eqn:Hl; [|done].
      destruct (Halloc (fresh w)) as [_ ?]; [by eexists|lia]. }
    case_decide; [done|].
    destruct (slist_relocates E (w_trace w) sl); [done|].
    apply delete_delete_eq.
  - revert Hrun. unfold curl_slist_append. rewrite Hchain.
    intros [= Hhead Hw1]. subst w1 head. clear Hnew Hnull. intros p. simpl.
    assert (Hsl : sl ≠ nullptr → 0 < sl < fresh w).
    { intros Hne. unfold chain_of in Hchain.
      rewrite decide_False in Hchain by done.
      apply Halloc. by eexists. }
    assert (Hbump : ∀ w0 : world, fresh (bump w0) = fresh w0 + 1)
      by (intros w0; unfold fresh; simpl; lia).
    rewrite Hbump. change (fresh (with_slist _ (log _ w))) with (fresh w).
    assert (Hpos : 0 < fresh w) by (unfold fresh; lia).
    intros [<-|[Hne Hp]]%lookup_insert_is_Some.
    + case_decide as Hnull; [lia|].
      destruct (slist_relocates E (w_trace w) sl); [lia|].
      specialize (Hsl Hnull). lia.
    + assert (Hin : is_Some (w_slist w !! p)).
      { destruct Hp as [x Hx]. apply lookup_delete_Some in Hx as [_ Hx].
        by eexists. }
      destruct (Halloc p Hin) as [? ?]. lia.
Qed.

Lemma list_append_all_rest (E : env) (values : list string) :
  ∀ (this : curl_list) (w : world) (items : list string),
    slist_allocated w → chain_of w (list_ this) = Some items →
    ∃ this' w',
      list_append_all E this values w = (Ok this', w')
      ∧ delete (list_ this') (w_slist w') = delete (list_ this) (w_slist w)
      ∧ slist_allocated w'
      ∧ chain_of w' (list_ this') = Some (items ++ values).
Proof.
  induction values as [|v rest IH]; intros this w items Halloc Hchain.
  - exists this, w. by rewrite app_nil_r.
  - destruct (curl_slist_append_rest E (list_ this) v w items Halloc Hchain)
      as (head & w1 & Hrun & Hrest & Halloc1 & Hnew).
    destruct (IH {| list_ := head |} w1 (items ++ [v]) Halloc1 Hnew)
      as (this' & w' & Hall & Hrest' & Halloc' & Hfinal).
    exists this', w'. split; [|split; [|split; [done|]]].
    + simpl. unfold list_append.
      rewrite (bind_run _ _ _ _ _ (bind_run _ _ _ _ _ Hrun)). exact Hall.
    + by rewrite Hrest'.
    + by rewrite Hfinal, <-app_assoc.
Qed.

(** X11: appending to one list, however often and wherever the library
    moves its chain, leaves every other chain of the library as it was;
    the list's reference never becomes that of another chain. *)
Theorem list_append_keeps_other_chains (E : env) (this this' : curl_list)
    (values : list string) (w w' : world) (items other : list string)
    (q : Z) :
  slist_allocated w →
  chain_of w (list_deref this) = Some items →
  list_append_all E this values w = (Ok this', w') →
  q ≠ list_ this → w_slist w !! q = Some other →
  w_slist w' !! q = Some other ∧ list_deref this' ≠ q ∧ slist_allocated w'.
Proof.
  intros Halloc Hchain Hrun Hq Hother.
  destruct (list_append_all_rest E values this w items Halloc Hchain)
    as (this2 & w2 & Hrun2 & Hrest & Halloc' & _).
  rewrite Hrun in Hrun2. injection Hrun2 as <- <-.
  assert (Hl : delete (list_ this') (w_slist w') !! q = Some other).
  { rewrite Hrest. by rewrite lookup_delete_ne. }
  apply lookup_delete_Some in Hl as [Hne Hl]. done.
Qed.

(** Two lists of one entry each; two values are appended to the first. *)
Lemma list_append_keeps_other_chains_witness :
  ∃ this' w',
    list_append_all sample_env {| list_ := 1 |} ["b"; "c"] two_chain_world
    = (Ok this', w')
    ∧ w_slist w' !! 2 = Some ["z"].
Proof.
  destruct (list_append_all sample_env {| list_ := 1 |} ["b"; "c"]
              two_chain_world) as [r w'] eqn:Hrun.
  assert (Hr : ∃ this', r = Ok this')
    by (vm_compute in Hrun; injection Hrun as <- _; by eexists).
  destruct Hr as [this' ->].
  exists this', w'. split; [reflexivity|].
  eapply (list_append_keeps_other_chains sample_env {| list_ := 1 |} this'
            ["b"; "c"] two_chain_world w' ["a"] ["z"] 2).
  - intros p [x Hx]. unfold two_chain_world in Hx. simpl in Hx.
    apply lookup_insert_Some in Hx as [[<- _]|[_ Hx]]; [by vm_compute|].
    apply lookup_singleton_Some in Hx as [<- _]. by vm_compute.
  - reflexivity.
  - exact Hrun.
  - discriminate.
  - reflexivity.
Defined.

(** X12: the scope of a list releases its chain and nothing else: after
    any appends, the destructor makes one call of [curl_slist_free_all],
    on the list's current reference, and the library is left with the
    chains it had apart from the list's own; a list that started empty
    leaves the library's chains exactly as they were. *)
Theorem list_scope_releases_chain (E : env) (this : curl_list)
    (values : list string) (w : world) (items : list string) :
  slist_allocated w →
  chain_of w (list_deref this) = Some items →
  ∃ this' w',
    list_append_all E this values w = (Ok this', w')
    ∧ (list_dtor this' w').1 = Ok tt
    ∧ w_trace (list_dtor this' w').2
      = w_trace w' ++ [Call_slist_free_all (list_deref this')]
    ∧ w_slist (list_dtor this' w').2 = delete (list_ this) (w_slist w)
    ∧ (list_ this = nullptr → w_slist (list_dtor this' w').2 = w_slist w).
Proof.
  intros Halloc Hchain.
  destruct (list_append_all_rest E values this w items Halloc Hchain)
    as (this' & w' & Hrun & Hrest & _ & _).
  exists this', w'. split; [done|]. simpl. repeat split; [done|].
  intros Hnull. rewrite Hrest, Hnull. apply delete_id.
  destruct (w_slist w !! nullptr) eqn:Hl; [|done].
  destruct (Halloc nullptr) as [? _]; [by eexists|]. unfold nullptr in *. lia.
Qed.

Lemma list_scope_releases_chain_witness :
  ∃ this' w',
    list_append_all sample_env list_ctor ["a"; "b"] empty_world = (Ok this', w')
    ∧ w_slist (list_dtor this' w').2 = w_slist empty_world.
Proof.
  destruct (list_scope_releases_chain sample_env list_ctor ["a"; "b"]
              empty_world []) as (this' & w' & Hrun & _ & _ & _ & Hsame).
  - intros p [x Hx]. simpl in Hx. by rewrite lookup_empty in Hx.
  - reflexivity.
  - exists this', w'. split; [exact Hrun|]. by apply Hsame.
Defined.

(** X13: the defaulted move constructor and move assignment of [list]
    copy [list_] and leave the source as it was: both objects refer to the
    same chain, and destroying both calls [curl_slist_free_all] on it
    twice. *)
Theorem list_move_source_still_frees (sl : Z) (this : curl_list) (w : world) :
  let by_ctor := list_move_ctor {| list_ := sl |} in
  let by_assign := list_move_assign this {| list_ := sl |} in
  list_deref by_ctor.1 = sl ∧ list_deref by_ctor.2 = sl
  ∧ list_deref by_assign.1 = sl ∧ list_deref by_assign.2 = sl
  ∧ free_all_count sl
      (w_trace ((list_dtor by_ctor.1;; list_dtor by_ctor.2) w).2)
    = (free_all_count sl (w_trace w) + 2)%nat
  ∧ free_all_count sl
      (w_trace ((list_dtor by_assign.1;; list_dtor by_assign.2) w).2)
    = (free_all_count sl (w_trace w) + 2)%nat.
Proof.
  simpl. repeat split;
    rewrite <-!app_assoc, !free_all_count_app; simpl;
    rewrite decide_True by done; lia.
Qed.

(** ** The buffer of the cookie overload *)

(** X14: in the mapping overload of [add_cookie], the size computed by
    the first loop exceeds the length of every line the second loop
    builds by at least two, so that [reserve(size+1)] has room for each
    line and its terminator (for names and values whose sizes do not wrap
    in [size_t]); for the empty map the size is 0 and no native call is
    made. *)
Theorem cookie_reserve_covers_lines (E : env) (this : easy)
    (cookiemap : list (string * string)) (c : string * string) (w : world) :
  c ∈ cookiemap → strlen c.1 + strlen c.2 + 16 < 2 ^ 64 →
  strlen (cookie_line c) + 2 ≤ cookie_reserve_size cookiemap
  ∧ strlen (cookie_line c) = strlen c.1 + strlen c.2 + 14
  ∧ cookie_reserve_size [] = 0
  ∧ easy_add_cookie_map E this [] w = (Ok tt, w).
Proof.
  intros Hin Hsmall.
  pose proof (cookie_line_fits_reserve cookiemap c Hin Hsmall) as Hfit.
  rewrite strlen_cookie_line in *. repeat split; try done.
  pose proof (cookie_reserve_size_ge cookiemap 0 c Hin) as Hge.
  fold (cookie_reserve_size cookiemap) in Hge.
  unfold size_t in Hge. rewrite Z.mod_small in Hge; [lia|].
  pose proof (strlen_nonneg c.1). pose proof (strlen_nonneg c.2). lia.
Qed.

Lemma cookie_reserve_covers_lines_witness :
  strlen (cookie_line ("a", "1")) + 2
  ≤ cookie_reserve_size [("a", "1"); ("session", "0123456789")].
Proof.
  destruct (cookie_reserve_covers_lines sample_env {| handle_ := 5 |}
              [("a", "1"); ("session", "0123456789")] ("a", "1") sample_world)
    as [H _]; [by left | by vm_compute | exact H].
Defined.
